(** * File find-and-replace tool: the transformation engine of [app.py]

    A shallow embedding of the replacement functions of [app.py]
    ([replace_text], [count_occurrences], [replace_in_pdf_fitz],
    [replace_in_csv], [replace_in_xml], [save_modified_file]) and of the
    batch loop behind the "Start Replacement" button, followed by the
    properties of the specification stated over them.

    Python strings are lists of Unicode code points, uploaded files are
    lists of bytes, exceptions are the [Raise] results of a small error
    monad.  What the script gets from its libraries and cannot be read off
    its own text (the case table of [re.IGNORECASE], [str.lower], the three
    parsers and the three serialisers, the room on the interpreter's stack,
    which file a path names and whether it can be written, the member name
    the archive makes of a file name) is bundled in a record the
    definitions take as an argument. *)

From Stdlib Require Import String Ascii DecimalString.
From Stdlib Require Import List NArith ZArith QArith Bool Arith Lia.
Import ListNotations.

Local Close Scope Q_scope.
Local Open Scope nat_scope.
Local Open Scope list_scope.

(** ** Strings, bytes and exceptions *)

(** A Python [str]: its code points, in order. *)
Definition text := list N.

(** A [bytes] value or the content of a binary stream. *)
Definition bytes := list N.

(** The code points of an ASCII literal, for writing inputs down. *)
Definition txt (s : string) : text :=
  map N_of_ascii (list_ascii_of_string s).

(** [a == b] on strings. *)
Fixpoint text_eqb (a b : text) : bool :=
  match a, b with
  | [], [] => true
  | x :: a', y :: b' => N.eqb x y && text_eqb a' b'
  | _, _ => false
  end.

(** [s.startswith(p)]. *)
Fixpoint starts_with (p s : text) : bool :=
  match p, s with
  | [], _ => true
  | _ :: _, [] => false
  | x :: p', y :: s' => N.eqb x y && starts_with p' s'
  end.

(** The exceptions the script can meet.  [TemplateError] stands for the
    [re.error] and [IndexError] that compiling a replacement template
    raises, [PatternError] for the [re.error] of compiling a pattern;
    [ValueError] is the failed tuple unpacking, [AttributeError] a method
    the content does not have, [FileNotFoundError] a path that is not
    there or whose directory is not there, [OSError] a path the system
    refuses for another reason, as a name that is too long,
    [RecursionError] a call nested deeper than the interpreter allows; the
    others are what the parsers and the serialisers of the libraries
    raise. *)
Inductive exn : Type :=
| TemplateError
| PatternError
| ValueError
| AttributeError
| FileNotFoundError
| FileDataError
| ParserError
| ParseError
| SaveError
| RecursionError
| OSError.

Inductive result (A : Type) : Type :=
| Ok (a : A)
| Raise (e : exn).

Arguments Ok {A} a.
Arguments Raise {A} e.

Definition bind {A B : Type} (c : result A) (k : A -> result B) : result B :=
  match c with
  | Ok a => k a
  | Raise e => Raise e
  end.

Notation "x <- c ;; k" := (bind c (fun x => k))
  (at level 61, c at next level, right associativity).
Notation "' pat <- c ;; k" := (bind c (fun x => match x with pat => k end))
  (at level 61, pat pattern, c at next level, right associativity).

(** A list comprehension whose body may raise: left to right, the first
    exception ends it. *)
Fixpoint mapM {A B : Type} (f : A -> result B) (l : list A) : result (list B) :=
  match l with
  | [] => Ok []
  | a :: l' => b <- f a ;; bs <- mapM f l' ;; Ok (b :: bs)
  end.

(** ** The [re] module, as far as [replace_text] uses it *)

Module Re.

Definition BACKSLASH : N := 92.

Definition in_range (lo hi c : N) : bool := (lo <=? c)%N && (c <=? hi)%N.
Definition is_digit (c : N) : bool := in_range 48 57 c.
Definition is_octdigit (c : N) : bool := in_range 48 55 c.
Definition is_ascii_letter (c : N) : bool := in_range 65 90 c || in_range 97 122 c.
Definition digit_val (c : N) : N := (c - 48)%N.

(** [re.escape]: a backslash before each of
    [()[]{}?*+-|^$\.&~#], space, tab, newline, CR, VT and FF. *)
Definition special_chars : list N :=
  [40; 41; 91; 93; 123; 125; 63; 42; 43; 45; 124; 94; 36; 92; 46; 38; 126; 35;
   32; 9; 10; 13; 11; 12]%N.

Definition is_special (c : N) : bool := existsb (N.eqb c) special_chars.

Definition escape (pattern : text) : text :=
  flat_map (fun c => if is_special c then [BACKSLASH; c] else [c]) pattern.

(** The characters the pattern parser reads as operators when they are
    not escaped: [.\[{()*+?^$|]. *)
Definition operator_chars : list N :=
  [46; 92; 91; 123; 40; 41; 42; 43; 63; 94; 36; 124]%N.

Definition is_operator (c : N) : bool := existsb (N.eqb c) operator_chars.

(** [re.compile] on the patterns that are sequences of literals: an
    ordinary character stands for itself, and so does an escaped character
    that is neither a letter nor a digit.  [None] is every other pattern
    (operators, classes, groups, a dangling backslash): [replace_text]
    never builds one, see [parse_literals_escape]. *)
Fixpoint parse_literals (pattern : text) : option text :=
  match pattern with
  | [] => Some []
  | c :: rest =>
      if N.eqb c BACKSLASH then
        match rest with
        | [] => None
        | e :: rest' =>
            if is_ascii_letter e || is_digit e then None
            else option_map (cons e) (parse_literals rest')
        end
      else if is_operator c then None
      else option_map (cons c) (parse_literals rest)
  end.

(** A compiled pattern: its literals and the [re.IGNORECASE] flag. *)
Record Pattern : Type := mkPattern { lits : text; ignorecase : bool }.

Definition compile (pattern : text) (flag_ignorecase : bool) : option Pattern :=
  option_map (fun l => mkPattern l flag_ignorecase) (parse_literals pattern).

(** A compiled replacement template: literal characters and references
    to a group.  The patterns of [replace_text] have no capturing group, so
    the only group there is is group 0, the whole match. *)
Inductive titem : Type :=
| TLit (c : N)
| TGroup (index : N).

(** The name between [\g<] and [>]: the characters up to the first [>],
    with the number of characters read, terminator included. *)
Fixpoint getuntil_gt (src : text) : option (text * nat) :=
  match src with
  | [] => None
  | c :: rest =>
      if N.eqb c 62 then Some ([], 1)
      else match getuntil_gt rest with
           | Some (name, k) => Some (c :: name, S k)
           | None => None
           end
  end.

Definition all_zero_digits (name : text) : bool :=
  match name with
  | [] => false
  | _ => forallb (N.eqb 48) name
  end.

(** One step of [re._parser.parse_template] at a backslash, [rest] being
    what follows it: the items added and how many characters of [rest] the
    step reads.  With no group in the pattern every reference to a group
    other than 0 is "invalid group reference", and [\g<name>] knows no
    name.  *)
Definition template_escape (rest : text) : result (list titem * nat) :=
  match rest with
  | [] => Raise TemplateError                       (* bad escape (end of pattern) *)
  | c :: rest1 =>
      if N.eqb c 103 then                            (* \g<...> *)
        match rest1 with
        | 60%N :: rest2 =>
            match getuntil_gt rest2 with
            | Some (name, k) =>
                if all_zero_digits name then Ok ([TGroup 0], 2 + k)
                else Raise TemplateError
            | None => Raise TemplateError
            end
        | _ => Raise TemplateError                   (* missing < *)
        end
      else if N.eqb c 48 then                        (* \0, \0d, \0dd: octal *)
        match rest1 with
        | d1 :: rest2 =>
            if is_octdigit d1 then
              match rest2 with
              | d2 :: _ =>
                  if is_octdigit d2
                  then Ok ([TLit (N.land (digit_val d1 * 8 + digit_val d2) 255)], 3)
                  else Ok ([TLit (N.land (digit_val d1) 255)], 2)
              | [] => Ok ([TLit (N.land (digit_val d1) 255)], 2)
              end
            else Ok ([TLit 0%N], 1)
        | [] => Ok ([TLit 0%N], 1)
        end
      else if is_digit c then                        (* \1 .. \99, \ddd *)
        match rest1 with
        | d1 :: rest2 =>
            if is_digit d1 then
              match rest2 with
              | d2 :: _ =>
                  if is_octdigit c && is_octdigit d1 && is_octdigit d2 then
                    let v := (digit_val c * 64 + digit_val d1 * 8 + digit_val d2)%N in
                    if (255 <? v)%N then Raise TemplateError
                    else Ok ([TLit v], 3)
                  else Raise TemplateError           (* invalid group reference *)
              | [] => Raise TemplateError
              end
            else Raise TemplateError
        | [] => Raise TemplateError
        end
      else if N.eqb c 97 then Ok ([TLit 7%N], 1)     (* \a *)
      else if N.eqb c 98 then Ok ([TLit 8%N], 1)     (* \b *)
      else if N.eqb c 102 then Ok ([TLit 12%N], 1)   (* \f *)
      else if N.eqb c 110 then Ok ([TLit 10%N], 1)   (* \n *)
      else if N.eqb c 114 then Ok ([TLit 13%N], 1)   (* \r *)
      else if N.eqb c 116 then Ok ([TLit 9%N], 1)    (* \t *)
      else if N.eqb c 118 then Ok ([TLit 11%N], 1)   (* \v *)
      else if N.eqb c BACKSLASH then Ok ([TLit BACKSLASH], 1)
      else if is_ascii_letter c then Raise TemplateError   (* bad escape *)
      else Ok ([TLit BACKSLASH; TLit c], 1)
  end.

(** [parse_template]: [skip] counts the characters the previous step has
    already read. *)
Fixpoint parse_template_from (skip : nat) (src : text) : result (list titem) :=
  match src with
  | [] => Ok []
  | c :: rest =>
      match skip with
      | S k => parse_template_from k rest
      | O =>
          if N.eqb c BACKSLASH then
            '(items, k) <- template_escape rest ;;
            more <- parse_template_from k rest ;;
            Ok (items ++ more)
          else
            more <- parse_template_from 0 rest ;;
            Ok (TLit c :: more)
      end
  end.

Definition parse_template (src : text) : result (list titem) :=
  parse_template_from 0 src.

(** What a template puts in place of the match [m]. *)
Definition expand (template : list titem) (m : text) : text :=
  flat_map (fun it => match it with TLit c => [c] | TGroup _ => m end) template.

(** How the replacement argument of [subn] is used: a string without a
    backslash is taken as it is, any other string is compiled as a template
    first, before any matching, and the compilation may raise. *)
Definition filter_of (repl : text) : result (text -> text) :=
  if existsb (N.eqb BACKSLASH) repl then
    template <- parse_template repl ;; Ok (expand template)
  else Ok (fun _ => repl).

Section Matching.

(** [ic p c]: the comparison of [re.IGNORECASE] between the pattern
    character [p] and the subject character [c]; it comes from the case
    table of the Unicode database.  [ignore_case] is the flag. *)
Variable ic : N -> N -> bool.
Variable ignore_case : bool.

Definition char_match (p c : N) : bool :=
  if ignore_case then ic p c else N.eqb p c.

(** The literals [lits] match at the head of [subject]. *)
Fixpoint match_here (lits subject : text) : bool :=
  match lits, subject with
  | [], _ => true
  | _ :: _, [] => false
  | p :: lits', c :: subject' => char_match p c && match_here lits' subject'
  end.

(** The loop that [subn] and [findall] share.  It searches from where
    the last match ended: at each position the pattern is tried, and a
    match is taken unless it is empty and lies where the last match ended,
    an empty one ([must_advance]); a position without a match is passed.
    After a match the search goes on at its end.  The loop gives the
    matches, each with the stretch of the subject passed before it ([gap]),
    and the stretch after the last match.  Every round of the loop either
    moves on in the subject or sets [must_advance], so that [fuel] rounds
    are enough when [fuel] is above twice the length of the subject, see
    [search_loop_enough_fuel]. *)
Fixpoint search_loop (lits : text) (fuel : nat) (must_advance : bool)
  (gap subject : text) : list (text * text) * text :=
  match fuel with
  | O => ([], gap ++ subject)
  | S fuel' =>
      if match_here lits subject && negb (must_advance && Nat.eqb (length lits) 0) then
        let '(found, tail) :=
          search_loop lits fuel' (Nat.eqb (length lits) 0) []
                      (skipn (length lits) subject) in
        ((gap, firstn (length lits) subject) :: found, tail)
      else
        match subject with
        | [] => ([], gap)
        | c :: rest => search_loop lits fuel' false (gap ++ [c]) rest
        end
  end.

(** The rounds the loop needs from a position at most. *)
Definition rounds (must_advance : bool) (subject : text) : nat :=
  2 * length subject + if must_advance then 1 else 2.

Definition matches (lits subject : text) : list (text * text) * text :=
  search_loop lits (2 * length subject + 2) false [] subject.

(** The loop in one pass over the subject, for a pattern that is not
    empty: at a position where the pattern matches, the match is replaced
    and the pass goes on after it, [skip] counting the characters of the
    match still to pass; elsewhere the character is copied.  No function
    of the script is defined by it: for a pattern that is not empty the
    loop is proved to give what the pass gives ([search_loop_one_pass]),
    and the proofs are by induction on the pass. *)
Fixpoint one_pass (lits : text) (filter : text -> text) (skip : nat) (subject : text)
  : text * nat :=
  match subject with
  | [] => ([], 0)
  | c :: rest =>
      match skip with
      | S k => one_pass lits filter k rest
      | O =>
          if match_here lits subject then
            let '(out, n) := one_pass lits filter (length lits - 1) rest in
            (filter (firstn (length lits) subject) ++ out, S n)
          else
            let '(out, n) := one_pass lits filter 0 rest in
            (c :: out, n)
      end
  end.

End Matching.

(** The subject with what [filter] makes of each match in its place. *)
Definition joined (filter : text -> text) (found : list (text * text)) (tail : text)
  : text :=
  flat_map (fun '(gap, m) => gap ++ filter m) found ++ tail.

(** [pattern.subn(repl, string)]. *)
Definition subn (ic : N -> N -> bool) (pattern : Pattern) (repl subject : text)
  : result (text * nat) :=
  filter <- filter_of repl ;;
  let '(found, tail) := matches ic (ignorecase pattern) (lits pattern) subject in
  Ok (joined filter found tail, length found).

(** [pattern.findall(string)]: the matches, left to right. *)
Definition findall (ic : N -> N -> bool) (pattern : Pattern) (subject : text)
  : list text :=
  map snd (fst (matches ic (ignorecase pattern) (lits pattern) subject)).

End Re.

(** ** Documents *)

(** *** PDF: what the script sees of a PyMuPDF document *)

(** A rectangle [fitz.Rect(x0, y0, x1, y1)]; coordinates are finite
    floats, which the script only copies and compares: rationals. *)
Record Rect : Type := mkRect { x0 : Q; y0 : Q; x1 : Q; y1 : Q }.

(** One item of [page.get_text("blocks")]: the tuple
    [(x0, y0, x1, y1, text, block_no, block_type)]; type 0 is text, type 1
    an image. *)
Record Block : Type := mkBlock {
  bx0 : Q; by0 : Q; bx1 : Q; by1 : Q;
  btext : text;
  block_no : nat;
  block_type : nat
}.

(** [fitz.Rect(block[:4])]. *)
Definition Rect_of_block (block : Block) : Rect :=
  mkRect (bx0 block) (by0 block) (bx1 block) (by1 block).

(** A page: the blocks it had when it was opened, and what the script
    did to it since: the redaction annotations waiting to be applied, the
    rectangles that applied redactions have cleared, and the text
    inserted, each piece with its origin and font size. *)
Record Page : Type := mkPage {
  blocks : list Block;
  redact_annots : list Rect;
  cleared : list Rect;
  inserted : list (Q * Q * text * nat)
}.

Definition PdfDoc := list Page.

Definition get_text_blocks (page : Page) : list Block := blocks page.

Definition add_redact_annot (rect : Rect) (page : Page) : Page :=
  mkPage (blocks page) (redact_annots page ++ [rect]) (cleared page) (inserted page).

Definition apply_redactions (page : Page) : Page :=
  mkPage (blocks page) [] (cleared page ++ redact_annots page) (inserted page).

Definition insert_text (point : Q * Q) (s : text) (fontsize : nat) (page : Page) : Page :=
  mkPage (blocks page) (redact_annots page) (cleared page)
         (inserted page ++ [(point, s, fontsize)]).

(** [rect.tl], the top-left corner. *)
Definition Rect_tl (rect : Rect) : Q * Q := (x0 rect, y0 rect).

Definition Qltb (a b : Q) : bool := negb (Qle_bool b a).

Definition Qmax (a b : Q) : Q := if Qle_bool a b then b else a.
Definition Qmin (a b : Q) : Q := if Qle_bool a b then a else b.

(** Two rectangles share a region of non-zero area: content of the one
    lies in the other. *)
Definition overlaps (r s : Rect) : bool :=
  Qltb (Qmax (x0 r) (x0 s)) (Qmin (x1 r) (x1 s))
  && Qltb (Qmax (y0 r) (y0 s)) (Qmin (y1 r) (y1 s)).

(** A redaction removes the page content lying in its rectangle, glyphs
    and image pixels alike: the block has lost content on [page] when an
    applied redaction overlaps its rectangle. *)
Definition redacted (page : Page) (block : Block) : bool :=
  existsb (fun r => overlaps r (Rect_of_block block)) (cleared page).

(** *** CSV: a pandas data frame *)

(** A value of an [object] column: a string, the missing value (the float
    NaN), a boolean, or another Python object, given by its [str()]. *)
Inductive ObjValue : Type :=
| OStr (s : text)
| ONaN
| OBool (b : bool)
| OOther (rendering : text).

Inductive NumType : Type := int64 | float64 | bool_.

(** A column: of dtype [object], or of a numeric dtype with its values
    as stored. *)
Inductive Column : Type :=
| ObjectColumn (name : text) (values : list ObjValue)
| NumericColumn (name : text) (dtype : NumType) (raw : list N).

Definition DataFrame := list Column.

Definition column_name (col : Column) : text :=
  match col with
  | ObjectColumn name _ => name
  | NumericColumn name _ _ => name
  end.

Definition column_length (col : Column) : nat :=
  match col with
  | ObjectColumn _ values => length values
  | NumericColumn _ _ raw => length raw
  end.

(** [str(cell)]. *)
Definition py_str (cell : ObjValue) : text :=
  match cell with
  | OStr s => s
  | ONaN => txt "nan"
  | OBool true => txt "True"
  | OBool false => txt "False"
  | OOther rendering => rendering
  end.

(** [series.astype(str)]. *)
Definition astype_str (values : list ObjValue) : list ObjValue :=
  map (fun cell => OStr (py_str cell)) values.

(** What [pd.read_csv] returns for a file that is a header row and
    nothing else: no row, and every column of dtype [object]. *)
Definition header_only (headers : list text) : DataFrame :=
  map (fun h => ObjectColumn h []) headers.

(** *** XML: an ElementTree element *)

#[warnings="-register-all"]
Inductive Element : Type :=
| Elem (tag : text) (attrib : list (text * text))
       (text_ : option text) (tail : option text) (children : list Element).

Definition elem_text (e : Element) : option text :=
  match e with Elem _ _ t _ _ => t end.
Definition elem_tail (e : Element) : option text :=
  match e with Elem _ _ _ t _ => t end.
Definition elem_children (e : Element) : list Element :=
  match e with Elem _ _ _ _ c => c end.

(** A loop over the children of an element, the body being given: the
    children after the loop and the counter. *)
Fixpoint for_each_child (body : Element -> nat -> result (Element * nat))
  (children : list Element) (count : nat) : result (list Element * nat) :=
  match children with
  | [] => Ok ([], count)
  | child :: more =>
      '(child', count) <- body child count ;;
      '(more', count) <- for_each_child body more count ;;
      Ok (child' :: more', count)
  end.

(** ** The libraries of the script *)

(** What a call that saves a document does: it writes the content in
    full; or it raises after the file has been opened, which leaves the file
    with what was written until then; or it raises before it opens the
    file. *)
Inductive SaveOutcome : Type :=
| Written (content : bytes)
| Broken (partial : bytes) (e : exn)
| Refused (e : exn).

Record Lib : Type := mkLib {
  ic : N -> N -> bool;                     (* the comparison of re.IGNORECASE *)
  str_lower : text -> text;                (* str.lower *)
  stack_room : nat;                        (* how deep replace_text_elem can nest
                                              before the interpreter's recursion
                                              limit is reached *)
  matcher_frames : nat;                    (* the frames a call of replace_text
                                              takes below its caller *)
  fitz_open : bytes -> option PdfDoc;      (* None: not a PDF, the call raises *)
  pdf_save : PdfDoc -> SaveOutcome;
  read_csv : bytes -> option DataFrame;
  to_csv : DataFrame -> SaveOutcome;
  ET_parse : bytes -> option Element;
  ET_write : Element -> SaveOutcome;
  locate : text -> option text;            (* the file a path names, the same for
                                              two paths that name one file; None:
                                              the path cannot be opened for
                                              writing *)
  open_error : text -> text -> exn;        (* what the saving call of a file type
                                              raises for such a path *)
  zip_arcname : text -> text               (* the member name the archive makes
                                              of arcname *)
}.

(** An uploaded file: a named binary stream with its read position. *)
Record UploadedFile : Type := mkFile {
  file_name : text;
  file_data : bytes;
  file_pos : nat
}.

(** [file.read()] and, for the parsers that are given the stream, what
    they read: the bytes from the position on. *)
Definition file_read (file : UploadedFile) : bytes :=
  skipn (file_pos file) (file_data file).

Definition file_seek (file : UploadedFile) (pos : nat) : UploadedFile :=
  mkFile (file_name file) (file_data file) pos.

(** ** The replacement functions *)

Section Replacement.

Variable L : Lib.

(** [replace_text(text, find, replace, case_sensitive)]. *)
Definition replace_text (text_ find replace : text) (case_sensitive : bool)
  : result (text * nat) :=
  match
    (if negb case_sensitive
     then Re.compile (Re.escape find) true
     else Re.compile (Re.escape find) false)
  with
  | Some pattern => Re.subn (ic L) pattern replace text_
  | None => Raise PatternError
  end.

(** [count_occurrences(text, find, case_sensitive)]. *)
Definition count_occurrences (text_ find : text) (case_sensitive : bool)
  : result nat :=
  let flags := if case_sensitive then false else true in
  match Re.compile (Re.escape find) flags with
  | Some pattern => Ok (length (Re.findall (ic L) pattern text_))
  | None => Raise PatternError
  end.

(** *** [replace_in_pdf_fitz] *)

(** The body of the loop over the blocks of a page. *)
Definition pdf_block_step (find replace : text) (case_sensitive : bool)
  (state : Page * nat) (block : Block) : result (Page * nat) :=
  let '(page, total_count) := state in
  if Nat.eqb (block_type block) 0 then
    let text_ := btext block in
    '(modified_text, count) <- replace_text text_ find replace case_sensitive ;;
    let total_count := total_count + count in
    if 0 <? count then
      let rect := Rect_of_block block in
      let page := add_redact_annot rect page in
      let page := apply_redactions page in
      let page := insert_text (Rect_tl rect) modified_text 11 page in
      Ok (page, total_count)
    else Ok (page, total_count)
  else Ok (page, total_count).

Fixpoint pdf_blocks_loop (find replace : text) (case_sensitive : bool)
  (block_list : list Block) (state : Page * nat) : result (Page * nat) :=
  match block_list with
  | [] => Ok state
  | block :: more =>
      state' <- pdf_block_step find replace case_sensitive state block ;;
      pdf_blocks_loop find replace case_sensitive more state'
  end.

(** The loop over the pages: the pages done and the running count. *)
Fixpoint pdf_pages_loop (find replace : text) (case_sensitive : bool)
  (doc : PdfDoc) (total_count : nat) : result (PdfDoc * nat) :=
  match doc with
  | [] => Ok ([], total_count)
  | page :: more =>
      let block_list := get_text_blocks page in
      '(page', total_count) <-
        pdf_blocks_loop find replace case_sensitive block_list (page, total_count) ;;
      '(more', total_count) <-
        pdf_pages_loop find replace case_sensitive more total_count ;;
      Ok (page' :: more', total_count)
  end.

(** The function on an opened document. *)
Definition replace_in_pdf_doc (doc : PdfDoc) (find replace : text)
  (case_sensitive : bool) : result (PdfDoc * nat) :=
  pdf_pages_loop find replace case_sensitive doc 0.

Definition replace_in_pdf_fitz (file : UploadedFile) (find replace : text)
  (case_sensitive : bool) : result (PdfDoc * nat) :=
  match fitz_open L (file_read file) with
  | None => Raise FileDataError
  | Some doc => replace_in_pdf_doc doc find replace case_sensitive
  end.

(** *** [replace_in_csv] *)

(** [zip] over the starred list of pairs, unpacked into two targets:
    the two tuples when there is a pair, and "not enough values to
    unpack" when there is none. *)
Definition unzip_pairs {A B : Type} (pairs : list (A * B))
  : result (list A * list B) :=
  match pairs with
  | [] => Raise ValueError
  | _ :: _ => Ok (List.split pairs)
  end.

(** The body of the loop over the columns. *)
Definition csv_column_step (find replace : text) (case_sensitive : bool)
  (col : Column) (count : nat) : result (Column * nat) :=
  match col with
  | ObjectColumn name values =>
      let values := astype_str values in
      pairs <- mapM (fun cell => replace_text (py_str cell) find replace case_sensitive)
                    values ;;
      '(new_values, col_count) <- unzip_pairs pairs ;;
      Ok (ObjectColumn name (map OStr new_values), count + list_sum col_count)
  | NumericColumn _ _ _ => Ok (col, count)
  end.

Fixpoint csv_columns_loop (find replace : text) (case_sensitive : bool)
  (columns : list Column) (count : nat) : result (DataFrame * nat) :=
  match columns with
  | [] => Ok ([], count)
  | col :: more =>
      '(col', count) <- csv_column_step find replace case_sensitive col count ;;
      '(more', count) <- csv_columns_loop find replace case_sensitive more count ;;
      Ok (col' :: more', count)
  end.

(** The function on a parsed frame. *)
Definition replace_in_csv_frame (df : DataFrame) (find replace : text)
  (case_sensitive : bool) : result (DataFrame * nat) :=
  csv_columns_loop find replace case_sensitive df 0.

Definition replace_in_csv (file : UploadedFile) (find replace : text)
  (case_sensitive : bool) : result (DataFrame * nat) :=
  match read_csv L (file_read file) with
  | None => Raise ParserError
  | Some df => replace_in_csv_frame df find replace case_sensitive
  end.

(** *** [replace_in_xml] *)

(** [find in s]: [find] occurs in [s], compared code point by code
    point. *)
Fixpoint str_contains (find s : text) : bool :=
  starts_with find s
  || match s with
     | [] => false
     | _ :: s' => str_contains find s'
     end.

(** The truth value of [elem.text]: neither [None] nor empty. *)
Definition truthy (s : option text) : bool :=
  match s with
  | Some (_ :: _) => true
  | _ => false
  end.

(** [replace_text_elem], the counter of the enclosing function passed
    in and out; [for_each_child] is its loop over the children.  The
    function calls itself for the children, a frame of the interpreter's
    stack for every level of the tree: [room] is the number of levels there
    is still room for, and a call without room raises [RecursionError], as
    does a call of the matcher for whose frames there is no room. *)
Fixpoint replace_text_elem (find replace : text) (case_sensitive : bool)
  (room : nat) (elem : Element) (count : nat) {struct elem}
  : result (Element * nat) :=
  match room with
  | O => Raise RecursionError
  | S room' =>
      match elem with
      | Elem tag attrib text_ tail children =>
          '(text', count) <-
            match text_ with
            | Some t =>
                if truthy text_ && str_contains find t then
                  if matcher_frames L <=? room' then
                    '(modified, n) <- replace_text t find replace case_sensitive ;;
                    Ok (Some modified, count + n)
                  else Raise RecursionError
                else Ok (text_, count)
            | None => Ok (text_, count)
            end ;;
          '(children', count) <-
            for_each_child (replace_text_elem find replace case_sensitive room')
                           children count ;;
          Ok (Elem tag attrib text' tail children', count)
      end
  end.

(** What [replace_text_elem] does to the text of the element it is at,
    on its own, [room'] being the room below the call. *)
Definition text_step (find replace : text) (case_sensitive : bool) (room' : nat)
  (text_ : option text) (count : nat) : result (option text * nat) :=
  match text_ with
  | Some t =>
      if truthy text_ && str_contains find t then
        if matcher_frames L <=? room' then
          '(modified, n) <- replace_text t find replace case_sensitive ;;
          Ok (Some modified, count + n)
        else Raise RecursionError
      else Ok (text_, count)
  | None => Ok (text_, count)
  end.

(** The function on a parsed tree. *)
Definition replace_in_xml_tree (root : Element) (find replace : text)
  (case_sensitive : bool) : result (Element * nat) :=
  replace_text_elem find replace case_sensitive (stack_room L) root 0.

Definition replace_in_xml (file : UploadedFile) (find replace : text)
  (case_sensitive : bool) : result (Element * nat) :=
  match ET_parse L (file_read file) with
  | None => Raise ParseError
  | Some root => replace_in_xml_tree root find replace case_sensitive
  end.

End Replacement.

(** ** Saving, and the loop over the uploaded files *)

(** A Python dictionary with string keys, in insertion order: setting a
    key that is there keeps its place. *)
Fixpoint dict_set {V : Type} (k : text) (v : V) (d : list (text * V))
  : list (text * V) :=
  match d with
  | [] => [(k, v)]
  | (k', v') :: d' =>
      if text_eqb k' k then (k', v) :: d' else (k', v') :: dict_set k v d'
  end.

Fixpoint dict_get {V : Type} (k : text) (d : list (text * V)) : option V :=
  match d with
  | [] => None
  | (k', v') :: d' => if text_eqb k' k then Some v' else dict_get k d'
  end.

(** [s.split(sep)] for a one-character separator. *)
Fixpoint split_on (sep : N) (s : text) : list text :=
  match s with
  | [] => [[]]
  | c :: s' =>
      if N.eqb c sep then [] :: split_on sep s'
      else match split_on sep s' with
           | piece :: pieces => (c :: piece) :: pieces
           | [] => [[c]]
           end
  end.

(** [os.path.join(a, b)] (POSIX). *)
Definition os_path_join (a b : text) : text :=
  match b with
  | 47%N :: _ => b
  | _ =>
      match a with
      | [] => b
      | _ :: _ => if N.eqb (last a 0%N) 47 then a ++ b else a ++ 47%N :: b
      end
  end.

(** What [save_modified_file] is given as [content]. *)
Inductive Content : Type :=
| PdfContent (doc : PdfDoc)
| FrameContent (df : DataFrame)
| TreeContent (tree : Element)
| StreamContent (file : UploadedFile).

(** What the page shows: each call of [st.warning], [st.error],
    [st.download_button], [st.markdown], [st.write] and [st.success] in the
    button's branch, with the values its message is formatted from. *)
Inductive Widget : Type :=
| warning_no_files
| warning_no_word
| warning_unsupported (filename : text)
| error_processing (filename : text) (e : exn)
| download_button (archive : list (text * bytes))
| summary_heading
| summary_line (file : text) (count : nat)
| success_all_done.

(** The state the loop works on: the files of the temporary directory,
    the members of the archive in the order written, the summary
    dictionary and the messages shown so far. *)
Record RunState : Type := mkRun {
  temp_files : list (text * bytes);
  zipf : list (text * bytes);
  replacements_summary : list (text * nat);
  shown : list Widget
}.

Definition initial_state : RunState := mkRun [] [] [] [].

Section Batch.

Variable L : Lib.
Variables (find_word replace_word : text) (case_sensitive : bool).
Variable temp_dir : text.

(** Opening [output_path] for writing and writing there what a saving
    call gives: the temporary directory after it, and whether it raised.  A
    call that raises when its file is open leaves what it has written. *)
Definition write_out (file_type : text) (outcome : SaveOutcome) (output_path : text)
  (files : list (text * bytes)) : list (text * bytes) * result unit :=
  match outcome with
  | Refused e => (files, Raise e)
  | Written content =>
      match locate L output_path with
      | Some f => (dict_set f content files, Ok tt)
      | None => (files, Raise (open_error L file_type output_path))
      end
  | Broken partial e =>
      match locate L output_path with
      | Some f => (dict_set f partial files, Raise e)
      | None => (files, Raise (open_error L file_type output_path))
      end
  end.

(** [save_modified_file(content, output_path, file_type)]: the
    temporary directory after the call, and whether the call raised. *)
Definition save_modified_file (content : Content) (output_path file_type : text)
  (files : list (text * bytes)) : list (text * bytes) * result unit :=
  if text_eqb file_type (txt "pdf") then
    match content with
    | PdfContent doc => write_out file_type (pdf_save L doc) output_path files
    | _ => (files, Raise AttributeError)
    end
  else if text_eqb file_type (txt "csv") then
    match content with
    | FrameContent df => write_out file_type (to_csv L df) output_path files
    | _ => (files, Raise AttributeError)
    end
  else if text_eqb file_type (txt "xml") then
    match content with
    | TreeContent tree => write_out file_type (ET_write L tree) output_path files
    | _ => (files, Raise AttributeError)
    end
  else if text_eqb file_type (txt "xpt") then
    match content with
    | StreamContent file =>
        write_out file_type (Written (file_read file)) output_path files
    | _ => (files, Raise AttributeError)
    end
  else (files, Ok tt).

(** [filename.split(".")[-1].lower()]. *)
Definition extension (filename : text) : text :=
  str_lower L (last (split_on 46 filename) []).

(** A branch after its handler has returned: the save, then the count. *)
Definition save_then (content : Content) (output_path file_type : text)
  (files : list (text * bytes)) (count : nat)
  : list (text * bytes) * result (option nat) :=
  let '(files', saved) := save_modified_file content output_path file_type files in
  (files', _ <- saved ;; Ok (Some count)).

(** The branches on the extension, inside the [try]: the temporary
    directory after the branch, and the count when the branch has run to
    its end, [None] in the branch of the unsupported types, which goes on
    to the next file, or the exception. *)
Definition dispatch (file : UploadedFile) (output_path : text)
  (files : list (text * bytes)) : list (text * bytes) * result (option nat) :=
  let ext := extension (file_name file) in
  if text_eqb ext (txt "pdf") then
    match replace_in_pdf_fitz L file find_word replace_word case_sensitive with
    | Ok (modified_doc, count) =>
        save_then (PdfContent modified_doc) output_path (txt "pdf") files count
    | Raise e => (files, Raise e)
    end
  else if text_eqb ext (txt "csv") then
    match replace_in_csv L file find_word replace_word case_sensitive with
    | Ok (modified, count) =>
        save_then (FrameContent modified) output_path (txt "csv") files count
    | Raise e => (files, Raise e)
    end
  else if text_eqb ext (txt "xml") then
    match replace_in_xml L file find_word replace_word case_sensitive with
    | Ok (modified, count) =>
        save_then (TreeContent modified) output_path (txt "xml") files count
    | Raise e => (files, Raise e)
    end
  else if text_eqb ext (txt "xpt") then
    let file := file_seek file 0 in
    let count := 0 in
    save_then (StreamContent file) output_path (txt "xpt") files count
  else (files, Ok None).

(** [zipf.write(output_path, arcname=filename)]: it reads the file the
    path names and adds it under the name the archive makes of [arcname]. *)
Definition zipf_write (output_path arcname : text) (files : list (text * bytes))
  : result (text * bytes) :=
  match locate L output_path with
  | Some f =>
      match dict_get f files with
      | Some out => Ok (zip_arcname L arcname, out)
      | None => Raise FileNotFoundError
      end
  | None => Raise FileNotFoundError
  end.

(** The body of the loop over the uploaded files. *)
Definition process_file (state : RunState) (file : UploadedFile) : RunState :=
  let filename := file_name file in
  let output_path := os_path_join temp_dir filename in
  let '(files', outcome) := dispatch file output_path (temp_files state) in
  match outcome with
  | Ok None =>
      mkRun files' (zipf state) (replacements_summary state)
            (shown state ++ [warning_unsupported filename])
  | Ok (Some count) =>
      let summary' := dict_set filename count (replacements_summary state) in
      match zipf_write output_path filename files' with
      | Ok member => mkRun files' (zipf state ++ [member]) summary' (shown state)
      | Raise e =>
          mkRun files' (zipf state) summary'
                (shown state ++ [error_processing filename e])
      end
  | Raise e =>
      mkRun files' (zipf state) (replacements_summary state)
            (shown state ++ [error_processing filename e])
  end.

Definition process_files (uploaded_files : list UploadedFile) (state : RunState)
  : RunState :=
  fold_left process_file uploaded_files state.

(** The lines of the summary, one for each item of the dictionary. *)
Definition summary_lines (summary : list (text * nat)) : list Widget :=
  map (fun '(file, count) => summary_line file count) summary.

(** What the run has to report on the files: the messages of the loop,
    then the lines of the summary. *)
Definition report (state : RunState) : list Widget :=
  shown state ++ summary_lines (replacements_summary state).

(** The branch of the button: the page it produces. *)
Definition start_replacement (uploaded_files : list UploadedFile) : list Widget :=
  match uploaded_files with
  | [] => [warning_no_files]
  | _ :: _ =>
      match find_word with
      | [] => [warning_no_word]
      | _ :: _ =>
          let state := process_files uploaded_files initial_state in
          shown state
            ++ download_button (zipf state) :: summary_heading
            :: summary_lines (replacements_summary state)
            ++ [success_all_done]
      end
  end.

End Batch.

(** ** What the specification speaks of *)

Section Occurrences.

Variable ic : N -> N -> bool.
Variable case_sensitive : bool.
Variable find : text.

(** [find] occurs in [s] at position [p], under the case sensitivity. *)
Definition occurs_at (s : text) (p : nat) : bool :=
  Re.match_here ic (negb case_sensitive) find (skipn p s).

(** The positions [ps] are occurrences of [find] in [s], increasing,
    none before [lo] and none overlapping the one before it. *)
Fixpoint disjoint_occurrences (s : text) (lo : nat) (ps : list nat) : bool :=
  match ps with
  | [] => true
  | p :: ps' =>
      (lo <=? p) && occurs_at s p && disjoint_occurrences s (p + length find) ps'
  end.

(** [n] is the number of non-overlapping occurrences of [find] in [s]:
    some [n] occurrences do not overlap, and no more than [n] do. *)
Definition occurrence_count (s : text) (n : nat) : Prop :=
  (exists ps, disjoint_occurrences s 0 ps = true /\ length ps = n)
  /\ (forall ps, disjoint_occurrences s 0 ps = true -> length ps <= n).

(** [out] is [s] with the occurrences of [find] replaced by [repl],
    leftmost first and without overlap, [n] of them: before each replaced
    occurrence lies a stretch at no position of which [find] occurs, and
    the replacement goes on after the occurrence. *)
Inductive substituted (repl : text) : text -> text -> nat -> Prop :=
| subst_none s :
    (forall p, occurs_at s p = false) ->
    substituted repl s s 0
| subst_next gap m rest out n :
    (forall p, p < length gap -> occurs_at (gap ++ m ++ rest) p = false) ->
    length m = length find ->
    occurs_at (m ++ rest) 0 = true ->
    substituted repl rest out n ->
    substituted repl (gap ++ m ++ rest) (gap ++ repl ++ out) (S n).

End Occurrences.

(** The same as [out], up to the case of the letters: character by
    character equal, or identified by the case table. *)
Definition same_up_to_case (ic : N -> N -> bool) (out s : text) : Prop :=
  Forall2 (fun r c => r = c \/ ic r c = true) out s.

(** ** A library to run examples with: the ASCII part of the case table,
    parsers that know a few files *)

Definition ascii_lower (c : N) : N :=
  if Re.in_range 65 90 c then (c + 32)%N else c.

Definition ascii_ic (p c : N) : bool := N.eqb (ascii_lower p) (ascii_lower c).

Definition ascii_str_lower (s : text) : text := map ascii_lower s.

(** Lookup of a file content in a table of the files a parser knows. *)
Definition known {A : Type} (table : list (bytes * A)) (content : bytes) : option A :=
  dict_get content table.

(** A plain rendering of an element: tags, text, children, tail. *)
Fixpoint render_xml (e : Element) : text :=
  match e with
  | Elem tag _ text_ tail children =>
      (60%N :: tag) ++ 62%N
        :: match text_ with Some t => t | None => [] end
        ++ flat_map render_xml children
        ++ (60%N :: 47%N :: tag) ++ 62%N
        :: match tail with Some t => t | None => [] end
  end.

(** A plain rendering of a frame: the line of the headers, then the rows;
    a missing value is an empty field, a number its decimal digits. *)
Definition render_cell (col : Column) (row : nat) : text :=
  match col with
  | ObjectColumn _ values =>
      match nth_error values row with
      | Some ONaN | None => []
      | Some v => py_str v
      end
  | NumericColumn _ _ raw =>
      match nth_error raw row with
      | Some n => txt (NilZero.string_of_uint (N.to_uint n))
      | None => []
      end
  end.

Fixpoint join_fields (fields : list text) : text :=
  match fields with
  | [] => []
  | [f] => f
  | f :: more => f ++ 44%N :: join_fields more
  end.

Definition render_csv (df : DataFrame) : text :=
  let rows := match df with [] => 0 | col :: _ => column_length col end in
  join_fields (map column_name df) ++ 10%N
    :: flat_map (fun row => join_fields (map (fun col => render_cell col row) df) ++ [10%N])
         (seq 0 rows).

(** The three documents of the examples. *)
Definition hello_tree : Element :=
  Elem (txt "a") [] None None
    [Elem (txt "b") [] (Some (txt "hello world")) None [];
     Elem (txt "c") [] (Some (txt "hello")) None []].

Definition fruit_frame : DataFrame :=
  [ObjectColumn (txt "fruit") [OStr (txt "apple"); OStr (txt "banana"); OStr (txt "Apple")];
   NumericColumn (txt "stock") int64 [3; 0; 12]%N].

(** A column of words with a missing value. *)
Definition gap_frame : DataFrame :=
  [ObjectColumn (txt "word") [OStr (txt "apple"); ONaN]].

Definition letter_page : Page :=
  mkPage [mkBlock 72 72 300 90 (txt "hello world") 0 0;
          mkBlock 72 100 300 118 (txt "good bye") 1 0]
         [] [] [].

(** The files of the directory [/tmp/run] of the examples: a path names
    one when, after [/tmp/run/] and any [./], it has no directory part and
    at most 255 characters. *)
Fixpoint strip_prefix (prefix s : text) : option text :=
  match prefix, s with
  | [], _ => Some s
  | _ :: _, [] => None
  | x :: prefix', y :: s' => if N.eqb x y then strip_prefix prefix' s' else None
  end.

Fixpoint strip_dot_slash (s : text) : text :=
  match s with
  | 47%N :: s' => strip_dot_slash s'
  | 46%N :: s' =>
      match s' with
      | 47%N :: s'' => strip_dot_slash s''
      | _ => s
      end
  | _ => s
  end.

Definition demo_locate (path : text) : option text :=
  match strip_prefix (txt "/tmp/run/") path with
  | Some name =>
      let name := strip_dot_slash name in
      match name with
      | [] => None
      | _ :: _ =>
          if existsb (N.eqb 47) name || (255 <? length name) then None
          else Some (txt "/tmp/run/" ++ name)
      end
  | None => None
  end.

(** What opening such a path raises: its directory is not there, or its
    name is too long. *)
Definition demo_open_error (file_type path : text) : exn :=
  if 255 <? length (last (split_on 47 path) []) then OSError else FileNotFoundError.

Definition demo_lib : Lib :=
  mkLib ascii_ic ascii_str_lower 900 3
        (known [(txt "%PDF-1.7 letter", [letter_page])])
        (fun doc => Written (txt "%PDF-1.7 saved"))
        (known [(render_csv fruit_frame, fruit_frame);
                (render_csv gap_frame, gap_frame);
                (render_csv (header_only [txt "a"; txt "b"]),
                 header_only [txt "a"; txt "b"])])
        (fun df => Written (render_csv df))
        (known [(render_xml hello_tree, hello_tree)])
        (fun tree => Written (render_xml tree))
        demo_locate demo_open_error strip_dot_slash.


(** *** Views of a tree *)

(** The tree with [change] applied to the tail of every element. *)
Fixpoint map_tail (change : option text -> option text) (e : Element) : Element :=
  match e with
  | Elem tag attrib text_ tail children =>
      Elem tag attrib text_ (change tail) (map (map_tail change) children)
  end.

(** The tree without its texts: tags, attributes, tails and shape. *)
Fixpoint strip_text (e : Element) : Element :=
  match e with
  | Elem tag attrib _ tail children =>
      Elem tag attrib None tail (map strip_text children)
  end.

(** How deep a tree nests: the number of elements on its longest path
    from the root down. *)
Fixpoint tree_depth (e : Element) : nat :=
  match e with
  | Elem _ _ _ _ children => S (list_max (map tree_depth children))
  end.

(** The tails of a tree, in document order. *)
Fixpoint tails (e : Element) : list (option text) :=
  match e with
  | Elem _ _ _ tail children => flat_map tails children ++ [tail]
  end.

Definition result_map {A B : Type} (f : A -> B) (r : result A) : result B :=
  match r with
  | Ok a => Ok (f a)
  | Raise e => Raise e
  end.

(** [<a>x<b/>y</a>]: the [y] is the tail of [b]. *)
Definition tail_tree : Element :=
  Elem (txt "a") [] (Some (txt "x")) None
    [Elem (txt "b") [] None (Some (txt "y")) []].

(** [<a>Hello</a>]. *)
Definition capital_tree : Element :=
  Elem (txt "a") [] (Some (txt "Hello")) None [].


(** *** Views of a frame *)

(** The cell [cell'] is what the handler makes of the cell [cell] of an
    [object] column: the string the matcher returns for [str(cell)], which
    is [str(cell)] when the find-term does not occur in it. *)
Definition cell_coerced (L : Lib) (find replace : text) (case_sensitive : bool)
  (cell cell' : ObjValue) : Prop :=
  exists out n,
    replace_text L (py_str cell) find replace case_sensitive = Ok (out, n)
    /\ cell' = OStr out
    /\ (find <> [] -> n = 0 -> cell' = OStr (py_str cell)).

(** The column [col'] is what the handler makes of the column [col]. *)
Definition column_coerced (L : Lib) (find replace : text) (case_sensitive : bool)
  (col col' : Column) : Prop :=
  match col with
  | ObjectColumn name values =>
      exists values',
        col' = ObjectColumn name values'
        /\ Forall2 (cell_coerced L find replace case_sensitive) values values'
  | NumericColumn _ _ _ => col' = col
  end.



(** *** Views of a PDF run *)

(** The matcher's count on the text of a block. *)
Definition block_count (L : Lib) (find replace : text) (case_sensitive : bool)
  (block : Block) : nat :=
  match replace_text L (btext block) find replace case_sensitive with
  | Ok (_, n) => n
  | Raise _ => 0
  end.

(** The blocks the handler rewrites: the text blocks in which the matcher
    finds something. *)
Definition rewritten (L : Lib) (find replace : text) (case_sensitive : bool)
  (block : Block) : bool :=
  Nat.eqb (block_type block) 0 && (0 <? block_count L find replace case_sensitive block).

(** What the handler counts on a list of blocks: the matcher's counts on
    the text blocks. *)
Definition text_count (L : Lib) (find replace : text) (case_sensitive : bool)
  (block_list : list Block) : nat :=
  list_sum (map (fun block =>
                   if Nat.eqb (block_type block) 0
                   then block_count L find replace case_sensitive block
                   else 0) block_list).

(** The rectangles a run clears on a page: none when no block is
    rewritten; otherwise those of the redaction annotations the page came
    with, which the first [apply_redactions] applies with the others, and
    those of the rewritten blocks. *)
Definition cleared_in_run (L : Lib) (find replace : text) (case_sensitive : bool)
  (page : Page) : list Rect :=
  match filter (rewritten L find replace case_sensitive) (blocks page) with
  | [] => []
  | b :: bs => redact_annots page ++ map Rect_of_block (b :: bs)
  end.

(** A page with a heading, a line set close under it whose rectangle
    overlaps the heading's, and a picture behind both. *)
Definition heading_block : Block := mkBlock 72 72 300 90 (txt "hello world") 0 0.
Definition close_block : Block := mkBlock 72 88 300 104 (txt "good bye") 1 0.
Definition picture_block : Block := mkBlock 0 0 400 400 (txt "<image: DeviceRGB>") 2 1.

Definition crowded_page : Page :=
  mkPage [heading_block; close_block; picture_block] [] [] [].


(** *** Views of a batch *)

Section BatchViews.

Variable L : Lib.
Variables (find_word replace_word : text) (case_sensitive : bool).
Variable temp_dir : text.

(** What a saving call at [output_path] ends in: the bytes of the file
    when it is written in full, the exception otherwise. *)
Definition saved_bytes (file_type : text) (outcome : SaveOutcome) (output_path : text)
  : result bytes :=
  match outcome with
  | Refused e => Raise e
  | Written content =>
      match locate L output_path with
      | Some _ => Ok content
      | None => Raise (open_error L file_type output_path)
      end
  | Broken _ e =>
      match locate L output_path with
      | Some _ => Raise e
      | None => Raise (open_error L file_type output_path)
      end
  end.

(** What the branch of a file ends in, the temporary directory apart:
    the bytes saved and the count, [None] for an unsupported type, or the
    exception. *)
Definition transform (file : UploadedFile) : result (option (bytes * nat)) :=
  let output_path := os_path_join temp_dir (file_name file) in
  let ext := extension L (file_name file) in
  if text_eqb ext (txt "pdf") then
    '(modified_doc, count) <-
      replace_in_pdf_fitz L file find_word replace_word case_sensitive ;;
    out <- saved_bytes (txt "pdf") (pdf_save L modified_doc) output_path ;;
    Ok (Some (out, count))
  else if text_eqb ext (txt "csv") then
    '(modified, count) <-
      replace_in_csv L file find_word replace_word case_sensitive ;;
    out <- saved_bytes (txt "csv") (to_csv L modified) output_path ;;
    Ok (Some (out, count))
  else if text_eqb ext (txt "xml") then
    '(modified, count) <-
      replace_in_xml L file find_word replace_word case_sensitive ;;
    out <- saved_bytes (txt "xml") (ET_write L modified) output_path ;;
    Ok (Some (out, count))
  else if text_eqb ext (txt "xpt") then
    out <- saved_bytes (txt "xpt") (Written (file_data file)) output_path ;;
    Ok (Some (out, 0))
  else Ok None.

(** The outcome of a file as the page shows it: a line of the summary
    with the count, an error message with the exception, or a warning. *)
Definition outcome_item (file : UploadedFile) : Widget :=
  match transform file with
  | Ok (Some (_, count)) => summary_line (file_name file) count
  | Ok None => warning_unsupported (file_name file)
  | Raise e => error_processing (file_name file) e
  end.

(** The messages the loop shows for a file. *)
Definition messages (file : UploadedFile) : list Widget :=
  match transform file with
  | Ok (Some _) => []
  | Ok None => [warning_unsupported (file_name file)]
  | Raise e => [error_processing (file_name file) e]
  end.

(** The members a file adds to the archive. *)
Definition members (file : UploadedFile) : list (text * bytes) :=
  match transform file with
  | Ok (Some (out, _)) => [(zip_arcname L (file_name file), out)]
  | _ => []
  end.

(** The entry a file sets in the summary. *)
Definition summarise (summary : list (text * nat)) (file : UploadedFile)
  : list (text * nat) :=
  match transform file with
  | Ok (Some (_, count)) => dict_set (file_name file) count summary
  | _ => summary
  end.

Definition entries (file : UploadedFile) : list (text * nat) :=
  match transform file with
  | Ok (Some (_, count)) => [(file_name file, count)]
  | _ => []
  end.

End BatchViews.

(** The item of the report is about the file of that name. *)
Definition mentions (filename : text) (w : Widget) : bool :=
  match w with
  | warning_unsupported n => text_eqb n filename
  | error_processing n _ => text_eqb n filename
  | summary_line n _ => text_eqb n filename
  | _ => false
  end.

(** The files of the batches of the examples. *)
Definition fruit_file : UploadedFile :=
  mkFile (txt "fruit.csv") (render_csv fruit_frame) 0.
Definition fruit_file_again : UploadedFile :=
  mkFile (txt "fruit.csv") (render_csv gap_frame) 0.
Definition broken_file : UploadedFile :=
  mkFile (txt "broken.pdf") (txt "not a PDF at all") 0.
Definition hello_file : UploadedFile :=
  mkFile (txt "hello.xml") (render_xml hello_tree) 0.
Definition notes_file : UploadedFile :=
  mkFile (txt "notes.txt") (txt "hello") 0.
Definition transport_file : UploadedFile :=
  mkFile (txt "trial.XPT") [72; 69; 65; 68; 0; 255; 104; 101; 108; 108; 111]%N 4.

(** The same bytes under a name with a directory part; the temporary
    directory has no directory [sub]. *)
Definition folder_transport_file : UploadedFile :=
  mkFile (txt "sub/trial.xpt") [72; 69; 65; 68; 0; 255; 104; 101; 108; 108; 111]%N 0.


(** *** Views for the further properties *)

(** What the matcher makes of a text and what it counts in it, for the
    statements about a whole document: the text as it is and 0 where the
    matcher raises. *)
Definition matcher_text (L : Lib) (find replace : text) (case_sensitive : bool)
  (t : text) : text :=
  match replace_text L t find replace case_sensitive with
  | Ok (out, _) => out
  | Raise _ => t
  end.

Definition matcher_count (L : Lib) (find replace : text) (case_sensitive : bool)
  (t : text) : nat :=
  match replace_text L t find replace case_sensitive with
  | Ok (_, n) => n
  | Raise _ => 0
  end.

(** [repl] before every character of [s] and after the last. *)
Definition interleave (repl s : text) : text :=
  repl ++ flat_map (fun c => c :: repl) s.

(** The tree with [f] applied to every text that is not empty. *)
Fixpoint map_texts (f : text -> text) (e : Element) : Element :=
  match e with
  | Elem tag attrib text_ tail children =>
      Elem tag attrib
           (match text_ with
            | Some (c :: t) => Some (f (c :: t))
            | _ => text_
            end)
           tail (map (map_texts f) children)
  end.

(** The texts of a tree that are not empty, an element before its
    children. *)
Fixpoint tree_texts (e : Element) : list text :=
  match e with
  | Elem _ _ text_ _ children =>
      match text_ with
      | Some (c :: t) => [c :: t]
      | _ => []
      end ++ flat_map tree_texts children
  end.

(** The matcher's counts on the cells of a column of dtype [object], and
    on those of a frame. *)
Definition column_count (L : Lib) (find replace : text) (case_sensitive : bool)
  (col : Column) : nat :=
  match col with
  | ObjectColumn _ values =>
      list_sum (map (fun cell =>
                       matcher_count L find replace case_sensitive (py_str cell))
                    values)
  | NumericColumn _ _ _ => 0
  end.

Definition frame_count (L : Lib) (find replace : text) (case_sensitive : bool)
  (df : DataFrame) : nat :=
  list_sum (map (column_count L find replace case_sensitive) df).

Definition is_numeric (col : Column) : bool :=
  match col with
  | ObjectColumn _ _ => false
  | NumericColumn _ _ _ => true
  end.

(** The piece of text the handler puts back for a rewritten block. *)
Definition reinserted (L : Lib) (find replace : text) (case_sensitive : bool)
  (block : Block) : Q * Q * text * nat :=
  (Rect_tl (Rect_of_block block),
   matcher_text L find replace case_sensitive (btext block), 11).

(** What a run leaves of a page.  The blocks are listed as they were.
    The rectangles cleared are those the page had cleared and those of the
    run, no others.  The texts written are those the page had and, for the
    rewritten blocks and no others, in their order, the text the matcher
    made of each, at the top left corner of its rectangle in size 11.  No
    annotation is left waiting once a block has been rewritten.  And a
    block that is not rewritten and overlaps none of the rectangles of the
    run has lost nothing that it had. *)
Definition page_preserved (L : Lib) (find replace : text) (case_sensitive : bool)
  (page page' : Page) : Prop :=
  blocks page' = blocks page
  /\ cleared page' = cleared page ++ cleared_in_run L find replace case_sensitive page
  /\ inserted page'
     = inserted page
         ++ map (reinserted L find replace case_sensitive)
              (filter (rewritten L find replace case_sensitive) (blocks page))
  /\ redact_annots page'
     = match filter (rewritten L find replace case_sensitive) (blocks page) with
       | [] => redact_annots page
       | _ :: _ => []
       end
  /\ forall block,
       In block (blocks page) ->
       block_type block <> 0 \/ block_count L find replace case_sensitive block = 0 ->
       (forall r, In r (cleared_in_run L find replace case_sensitive page) ->
                  overlaps r (Rect_of_block block) = false) ->
       redacted page' block = redacted page block.

(** The file has run through its branch. *)
Definition succeeded (L : Lib) (find_word replace_word : text) (case_sensitive : bool)
  (temp_dir : text) (file : UploadedFile) : bool :=
  match transform L find_word replace_word case_sensitive temp_dir file with
  | Ok (Some _) => true
  | _ => false
  end.

(** A numbers-only frame and a page without the find-term, for the
    examples. *)
Definition stock_frame : DataFrame :=
  [NumericColumn (txt "stock") int64 [3; 0; 12]%N;
   NumericColumn (txt "price") float64 [4607182418800017408; 0; 1]%N].

(** * Properties *)

(** ** The pattern matcher *)

Lemma text_eqb_refl (a : text) : text_eqb a a = true.
Proof.
  induction a as [|x a IH]; simpl; [reflexivity|].
  now rewrite N.eqb_refl, IH.
Qed.

Lemma text_eqb_eq (a b : text) : text_eqb a b = true <-> a = b.
Proof.
  split; [|intros ->; apply text_eqb_refl].
  revert b; induction a as [|x a IH]; intros [|y b]; simpl; try easy.
  intros H. apply andb_true_iff in H as [Hx Hab].
  apply N.eqb_eq in Hx. apply IH in Hab. congruence.
Qed.

Lemma text_eqb_neq (a b : text) : text_eqb a b = false <-> a <> b.
Proof.
  split.
  - intros H E. apply text_eqb_eq in E. congruence.
  - intros H. destruct (text_eqb a b) eqn:E; [|reflexivity].
    apply text_eqb_eq in E. contradiction.
Qed.

Lemma special_not_alnum (c : N) :
  Re.is_special c = true -> Re.is_ascii_letter c || Re.is_digit c = false.
Proof.
  unfold Re.is_special. rewrite existsb_exists.
  intros [x [Hin Hx]]. apply N.eqb_eq in Hx. subst x.
  unfold Re.special_chars in Hin. simpl in Hin.
  repeat (destruct Hin as [<- | Hin]; [reflexivity|]).
  contradiction.
Qed.

Lemma operator_is_special (c : N) :
  Re.is_operator c = true -> Re.is_special c = true.
Proof.
  unfold Re.is_operator. rewrite existsb_exists.
  intros [x [Hin Hx]]. apply N.eqb_eq in Hx. subst x.
  unfold Re.operator_chars in Hin. simpl in Hin.
  repeat (destruct Hin as [<- | Hin]; [reflexivity|]).
  contradiction.
Qed.

(** The escaped find-term compiles to the find-term itself, character
    for character: it is matched as text, whatever it contains. *)
Lemma parse_literals_escape (find : text) :
  Re.parse_literals (Re.escape find) = Some find.
Proof.
  induction find as [|c find IH]; [reflexivity|].
  unfold Re.escape in *. cbn [flat_map].
  destruct (Re.is_special c) eqn:Hs.
  - cbn [app Re.parse_literals]. unfold Re.BACKSLASH at 1. rewrite N.eqb_refl.
    rewrite (special_not_alnum c Hs). rewrite IH. reflexivity.
  - cbn [app Re.parse_literals].
    destruct (N.eqb c Re.BACKSLASH) eqn:Hb.
    + apply N.eqb_eq in Hb. subst c. discriminate Hs.
    + destruct (Re.is_operator c) eqn:Ho.
      * apply operator_is_special in Ho. congruence.
      * rewrite IH. reflexivity.
Qed.

Lemma replace_text_subn (L : Lib) (s find replace : text) (case_sensitive : bool) :
  replace_text L s find replace case_sensitive
  = Re.subn (ic L) (Re.mkPattern find (negb case_sensitive)) replace s.
Proof.
  unfold replace_text, Re.compile.
  rewrite parse_literals_escape.
  destruct case_sensitive; reflexivity.
Qed.

Lemma filter_of_plain (repl : text) :
  existsb (N.eqb Re.BACKSLASH) repl = false ->
  Re.filter_of repl = Ok (fun _ => repl).
Proof.
  intros H. unfold Re.filter_of. now rewrite H.
Qed.

Section ScanFacts.

Variable ic : N -> N -> bool.
Variable case_sensitive : bool.
Variable find : text.
Hypothesis find_nonempty : find <> [].

Let ci := negb case_sensitive.
Let scan := Re.one_pass ic ci find.
Let here := Re.match_here ic ci find.

Lemma match_here_nil : here [] = false.
Proof. unfold here. destruct find; [congruence | reflexivity]. Qed.

Lemma match_here_length (s : text) : here s = true -> length find <= length s.
Proof.
  unfold here. revert s. clear find_nonempty scan here.
  induction find as [|p f IH]; intros s H; simpl; [lia|].
  destruct s as [|c s]; simpl in *; [discriminate|].
  apply andb_true_iff in H as [_ H]. apply IH in H. lia.
Qed.

Lemma occurs_at_0 (s : text) : occurs_at ic case_sensitive find s 0 = here s.
Proof. reflexivity. Qed.

Lemma occurs_at_S (c : N) (s : text) (p : nat) :
  occurs_at ic case_sensitive find (c :: s) (S p)
  = occurs_at ic case_sensitive find s p.
Proof. reflexivity. Qed.

Lemma occurs_at_nil (p : nat) : occurs_at ic case_sensitive find [] p = false.
Proof. unfold occurs_at. rewrite skipn_nil. apply match_here_nil. Qed.

(** The count of the scan does not depend on what is put in place of the
    matches. *)
Lemma scan_count_any_filter (f g : text -> text) (s : text) (skip : nat) :
  snd (scan f skip s) = snd (scan g skip s).
Proof.
  unfold scan. revert skip. induction s as [|c s IH]; intros skip; [reflexivity|].
  cbn [Re.one_pass]. destruct skip as [|k]; [|apply IH].
  destruct (Re.match_here ic ci find (c :: s)).
  - specialize (IH (length find - 1)).
    destruct (Re.one_pass ic ci find f _ s), (Re.one_pass ic ci find g _ s).
    simpl in *. congruence.
  - specialize (IH 0).
    destruct (Re.one_pass ic ci find f 0 s), (Re.one_pass ic ci find g 0 s).
    simpl in *. congruence.
Qed.

(** Skipping is scanning what is left. *)
Lemma scan_skip (f : text -> text) (skip : nat) (s : text) :
  scan f skip s = scan f 0 (skipn skip s).
Proof.
  unfold scan. revert s. induction skip as [|k IH]; intros s; [reflexivity|].
  destruct s as [|c s]; [reflexivity|]. cbn [Re.one_pass skipn]. apply IH.
Qed.

Lemma scan_hit (f : text -> text) (c : N) (s : text) :
  here (c :: s) = true ->
  scan f 0 (c :: s)
  = (f (firstn (length find) (c :: s)) ++ fst (scan f (length find - 1) s),
     S (snd (scan f (length find - 1) s))).
Proof.
  unfold here, scan. intros H. cbn [Re.one_pass]. rewrite H.
  destruct (Re.one_pass ic ci find f (length find - 1) s). reflexivity.
Qed.

Lemma scan_miss (f : text -> text) (c : N) (s : text) :
  here (c :: s) = false ->
  scan f 0 (c :: s) = (c :: fst (scan f 0 s), snd (scan f 0 s)).
Proof.
  unfold here, scan. intros H. cbn [Re.one_pass]. rewrite H.
  destruct (Re.one_pass ic ci find f 0 s). reflexivity.
Qed.

Lemma scan_nil (f : text -> text) (skip : nat) : scan f skip [] = ([], 0).
Proof. reflexivity. Qed.

Lemma scan_skip_S (f : text -> text) (k : nat) (c : N) (s : text) :
  scan f (S k) (c :: s) = scan f k s.
Proof. reflexivity. Qed.

(** *** The count is the number of non-overlapping occurrences *)

Let disjoint := disjoint_occurrences ic case_sensitive find.

Lemma disjoint_shift (c : N) (s : text) (lo : nat) (ps : list nat) :
  disjoint (c :: s) (S lo) (map S ps) = disjoint s lo ps.
Proof.
  unfold disjoint. revert lo. induction ps as [|p ps IH]; intros lo; [reflexivity|].
  cbn [map disjoint_occurrences]. rewrite occurs_at_S.
  change (S p + length find) with (S (p + length find)). rewrite IH.
  reflexivity.
Qed.

Lemma disjoint_unshift (c : N) (s : text) (lo : nat) (ps : list nat) :
  disjoint (c :: s) (S lo) ps = true ->
  exists qs, ps = map S qs /\ disjoint s lo qs = true.
Proof.
  unfold disjoint. revert lo. induction ps as [|p ps IH]; intros lo H.
  - exists []. split; reflexivity.
  - cbn [disjoint_occurrences] in H.
    apply andb_true_iff in H as [H Hrest]. apply andb_true_iff in H as [Hlo Hocc].
    apply Nat.leb_le in Hlo. destruct p as [|p]; [lia|].
    change (S p + length find) with (S (p + length find)) in Hrest.
    destruct (IH _ Hrest) as [qs [-> Hqs]].
    exists (p :: qs). split; [reflexivity|].
    cbn [disjoint_occurrences]. rewrite occurs_at_S in Hocc.
    rewrite Hocc, Hqs. replace (lo <=? p) with true; [reflexivity|].
    symmetry. apply Nat.leb_le. lia.
Qed.

Lemma disjoint_lower (s : text) (lo lo' : nat) (ps : list nat) :
  lo' <= lo -> disjoint s lo ps = true -> disjoint s lo' ps = true.
Proof.
  unfold disjoint. intros Hle H. destruct ps as [|p ps]; [reflexivity|].
  cbn [disjoint_occurrences] in *.
  apply andb_true_iff in H as [H Hrest]. apply andb_true_iff in H as [Hlo Hocc].
  rewrite Hocc, Hrest. apply Nat.leb_le in Hlo.
  replace (lo' <=? p) with true; [reflexivity|].
  symmetry. apply Nat.leb_le. lia.
Qed.

(** No more occurrences can be told apart than the scan counts. *)
Lemma scan_count_most (f : text -> text) (s : text) :
  forall skip lo ps,
    skip <= lo -> disjoint s lo ps = true -> length ps <= snd (scan f skip s).
Proof.
  induction s as [|c s IH]; intros skip lo ps Hle H.
  - destruct ps as [|p ps]; [simpl; lia|].
    unfold disjoint in H. cbn [disjoint_occurrences] in H.
    rewrite occurs_at_nil in H. rewrite andb_false_r in H. discriminate.
  - destruct skip as [|k].
    + destruct (here (c :: s)) eqn:Hh.
      * rewrite (scan_hit _ _ _ Hh). cbn [snd].
        destruct ps as [|p ps]; [simpl; lia|].
        unfold disjoint in H. cbn [disjoint_occurrences] in H.
        apply andb_true_iff in H as [_ Hrest].
        assert (Hlen : 1 <= length find).
        { destruct find; [congruence | simpl; lia]. }
        replace (p + length find) with (S (p + length find - 1)) in Hrest by lia.
        apply disjoint_unshift in Hrest as [qs [-> Hqs]].
        cbn [length]. rewrite length_map.
        apply le_n_S. apply (IH _ (p + length find - 1)); [lia | exact Hqs].
      * rewrite (scan_miss _ _ _ Hh). cbn [snd].
        destruct ps as [|p ps]; [simpl; lia|].
        assert (H1 : disjoint (c :: s) 1 (p :: ps) = true).
        { unfold disjoint in *. cbn [disjoint_occurrences] in *.
          apply andb_true_iff in H as [H Hrest].
          apply andb_true_iff in H as [_ Hocc].
          rewrite Hocc, Hrest. destruct p as [|p]; [|reflexivity].
          rewrite occurs_at_0 in Hocc. congruence. }
        apply disjoint_unshift in H1 as [qs [-> Hqs]].
        rewrite length_map. apply (IH 0 0); [lia | exact Hqs].
    + rewrite scan_skip_S. destruct lo as [|lo]; [lia|].
      apply disjoint_unshift in H as [qs [-> Hqs]].
      rewrite length_map. apply (IH k lo); [lia | exact Hqs].
Qed.

(** The occurrences the scan replaces do not overlap. *)
Lemma scan_count_some (f : text -> text) (s : text) :
  forall skip,
    exists ps, disjoint s skip ps = true /\ length ps = snd (scan f skip s).
Proof.
  induction s as [|c s IH]; intros skip.
  - exists []. rewrite scan_nil. split; reflexivity.
  - destruct skip as [|k].
    + destruct (here (c :: s)) eqn:Hh.
      * rewrite (scan_hit _ _ _ Hh). cbn [snd].
        destruct (IH (length find - 1)) as [qs [Hqs Hlen]].
        exists (0 :: map S qs). split.
        -- unfold disjoint. cbn [disjoint_occurrences].
           rewrite occurs_at_0, Hh. cbn [Nat.leb andb].
           assert (Hf : 1 <= length find).
           { destruct find; [congruence | simpl; lia]. }
           replace (0 + length find) with (S (length find - 1)) by lia.
           rewrite <- Hqs. apply disjoint_shift.
        -- simpl. rewrite length_map. congruence.
      * rewrite (scan_miss _ _ _ Hh). cbn [snd].
        destruct (IH 0) as [qs [Hqs Hlen]].
        exists (map S qs). split.
        -- apply (disjoint_lower (c :: s) 1); [lia|].
           rewrite <- Hqs. apply disjoint_shift.
        -- rewrite length_map. exact Hlen.
    + rewrite scan_skip_S. destruct (IH k) as [qs [Hqs Hlen]].
      exists (map S qs). split.
      * rewrite <- Hqs. apply disjoint_shift.
      * rewrite length_map. exact Hlen.
Qed.

Lemma scan_occurrence_count (f : text -> text) (s : text) :
  occurrence_count ic case_sensitive find s (snd (scan f 0 s)).
Proof.
  split.
  - apply scan_count_some.
  - intros ps H. apply (scan_count_most f s 0 0); [lia | exact H].
Qed.

End ScanFacts.

Section ScanText.

Variable ic : N -> N -> bool.
Variable case_sensitive : bool.
Variable find : text.
Hypothesis find_nonempty : find <> [].

Let ci := negb case_sensitive.
Let scan := Re.one_pass ic ci find.
Let here := Re.match_here ic ci find.

(** *** The text is the leftmost-first substitution *)

Lemma substituted_cons (repl : text) (c : N) (s out : text) (n : nat) :
  here (c :: s) = false ->
  substituted ic case_sensitive find repl s out n ->
  substituted ic case_sensitive find repl (c :: s) (c :: out) n.
Proof.
  intros Hmiss H. destruct H as [s Hnone | gap m rest out n Hgap Hlen Hocc Hrest].
  - apply subst_none. intros [|p]; [exact Hmiss | apply Hnone].
  - apply (subst_next ic case_sensitive find repl (c :: gap) m rest out n);
      [| exact Hlen | exact Hocc | exact Hrest].
    intros [|p] Hp; [exact Hmiss|]. simpl in Hp.
    change ((c :: gap) ++ m ++ rest) with (c :: gap ++ m ++ rest).
    rewrite (occurs_at_S ic case_sensitive find). apply Hgap. lia.
Qed.

Lemma scan_substituted_from (repl : text) (s : text) :
  forall skip,
    substituted ic case_sensitive find repl (skipn skip s)
      (fst (scan (fun _ => repl) skip s)) (snd (scan (fun _ => repl) skip s)).
Proof.
  induction s as [|c s IH]; intros skip.
  - rewrite skipn_nil. unfold scan. rewrite (scan_nil ic case_sensitive find).
    apply subst_none. intros p. apply (occurs_at_nil ic case_sensitive find find_nonempty).
  - destruct skip as [|k]; [|apply IH].
    cbn [skipn]. destruct (here (c :: s)) eqn:Hh.
    + unfold scan. rewrite (scan_hit ic case_sensitive find _ _ _ Hh).
      cbn [fst snd].
      pose proof (match_here_length ic case_sensitive find _ Hh) as Hlen.
      specialize (IH (length find - 1)).
      assert (Hsk : skipn (length find - 1) s = skipn (length find) (c :: s)).
      { destruct find as [|p f']; [congruence|]. simpl. now rewrite Nat.sub_0_r. }
      rewrite Hsk in IH.
      rewrite <- (firstn_skipn (length find) (c :: s)) at 1.
      apply (subst_next ic case_sensitive find repl
               [] (firstn (length find) (c :: s))).
      * intros p Hp. simpl in Hp. lia.
      * rewrite length_firstn. lia.
      * unfold occurs_at. cbn [skipn]. rewrite firstn_skipn. exact Hh.
      * exact IH.
    + unfold scan. rewrite (scan_miss ic case_sensitive find _ _ _ Hh). cbn [fst snd].
      apply substituted_cons; [exact Hh | apply (IH 0)].
Qed.

Lemma scan_substituted (repl s : text) :
  substituted ic case_sensitive find repl s
    (fst (scan (fun _ => repl) 0 s)) (snd (scan (fun _ => repl) 0 s)).
Proof. apply (scan_substituted_from repl s 0). Qed.

(** *** Replacing a match by what is equal to it, or equal up to case *)

Lemma scan_related (rel : N -> N -> Prop) (f : text -> text) (s : text) :
  (forall c, rel c c) ->
  (forall u, here u = true ->
             Forall2 rel (f (firstn (length find) u)) (firstn (length find) u)) ->
  forall skip, Forall2 rel (fst (scan f skip s)) (skipn skip s).
Proof.
  intros Hrefl Hf. induction s as [|c s IH]; intros skip.
  - rewrite skipn_nil. unfold scan. rewrite (scan_nil ic case_sensitive find).
    constructor.
  - destruct skip as [|k]; [|apply IH].
    cbn [skipn]. destruct (here (c :: s)) eqn:Hh.
    + unfold scan. rewrite (scan_hit ic case_sensitive find _ _ _ Hh).
      cbn [fst].
      rewrite <- (firstn_skipn (length find) (c :: s)) at 2.
      apply Forall2_app; [apply Hf; exact Hh|].
      specialize (IH (length find - 1)).
      replace (skipn (length find) (c :: s)) with (skipn (length find - 1) s);
        [exact IH|].
      destruct find as [|p f']; [congruence|]. simpl. now rewrite Nat.sub_0_r.
    + unfold scan. rewrite (scan_miss ic case_sensitive find _ _ _ Hh). cbn [fst].
      constructor; [apply Hrefl | apply (IH 0)].
Qed.

Lemma match_here_related (u : text) :
  here u = true ->
  Forall2 (fun p c => Re.char_match ic ci p c = true) find (firstn (length find) u).
Proof.
  unfold here. clear find_nonempty scan here. revert u.
  induction find as [|p f IH]; intros u H; [constructor|].
  destruct u as [|c u]; [discriminate|]. simpl in H.
  apply andb_true_iff in H as [Hc Hu]. cbn [length firstn].
  constructor; [exact Hc | apply IH; exact Hu].
Qed.

Lemma Forall2_eq_same (a b : text) : Forall2 eq a b -> a = b.
Proof. induction 1; congruence. Qed.

End ScanText.

Section ScanCounts.

Variable ic : N -> N -> bool.
Variable case_sensitive : bool.
Variable find : text.
Hypothesis find_nonempty : find <> [].

Let ci := negb case_sensitive.
Let scan := Re.one_pass ic ci find.
Let here := Re.match_here ic ci find.

(** Nothing found, nothing changed. *)
Lemma scan_count_zero (f : text -> text) (s : text) :
  forall skip, snd (scan f skip s) = 0 -> fst (scan f skip s) = skipn skip s.
Proof.
  induction s as [|c s IH]; intros skip.
  - unfold scan. rewrite (scan_nil ic case_sensitive find).
    now rewrite skipn_nil.
  - destruct skip as [|k]; [|apply IH].
    destruct (here (c :: s)) eqn:Hh.
    + unfold scan. rewrite (scan_hit ic case_sensitive find _ _ _ Hh).
      discriminate.
    + unfold scan. rewrite (scan_miss ic case_sensitive find _ _ _ Hh).
      cbn [fst snd skipn]. intros H0. f_equal. exact (IH 0 H0).
Qed.

End ScanCounts.

Section LoopFacts.

Variable ic : N -> N -> bool.
Variable flag : bool.
Variable lits : text.

Let loop := Re.search_loop ic flag lits.

Lemma match_here_fits (u : text) :
  Re.match_here ic flag lits u = true -> length lits <= length u.
Proof.
  revert u. induction lits as [|p l IH]; intros u H; simpl; [lia|].
  destruct u as [|c u]; simpl in *; [discriminate|].
  apply andb_true_iff in H as [_ H]. apply IH in H. lia.
Qed.

(** With rounds enough the loop does not run out of them: more rounds
    give the same. *)
Lemma search_loop_enough_fuel (fuel : nat) :
  forall fuel' must_advance gap u,
    Re.rounds must_advance u <= fuel ->
    Re.rounds must_advance u <= fuel' ->
    loop fuel must_advance gap u = loop fuel' must_advance gap u.
Proof.
  unfold loop, Re.rounds. induction fuel as [|fuel IH]; intros fuel' ma gap u Hf Hf'.
  - destruct ma; lia.
  - destruct fuel' as [|fuel']; [destruct ma; lia|].
    cbn [Re.search_loop].
    destruct (Re.match_here ic flag lits u
              && negb (ma && Nat.eqb (length lits) 0)) eqn:Et.
    + apply andb_true_iff in Et as [Hm Hma]. apply match_here_fits in Hm.
      rewrite (IH fuel' (Nat.eqb (length lits) 0) [] (skipn (length lits) u)).
      * reflexivity.
      * rewrite length_skipn. destruct (Nat.eqb (length lits) 0) eqn:E0.
        -- apply Nat.eqb_eq in E0. destruct ma; [discriminate|]. lia.
        -- apply Nat.eqb_neq in E0. destruct ma; lia.
      * rewrite length_skipn. destruct (Nat.eqb (length lits) 0) eqn:E0.
        -- apply Nat.eqb_eq in E0. destruct ma; [discriminate|]. lia.
        -- apply Nat.eqb_neq in E0. destruct ma; lia.
    + destruct u as [|c rest]; [reflexivity|].
      apply IH; cbn [length] in *; destruct ma; lia.
Qed.

Hypothesis lits_nonempty : lits <> [].

(** For a pattern that is not empty the loop gives what the pass over
    the subject gives. *)
Lemma search_loop_one_pass (f : text -> text) (fuel : nat) :
  forall must_advance gap u found tail,
    length u < fuel ->
    loop fuel must_advance gap u = (found, tail) ->
    Re.joined f found tail = gap ++ fst (Re.one_pass ic flag lits f 0 u)
    /\ length found = snd (Re.one_pass ic flag lits f 0 u).
Proof.
  assert (Hpos : 1 <= length lits).
  { destruct lits; [congruence | simpl; lia]. }
  assert (Hlen : Nat.eqb (length lits) 0 = false) by (apply Nat.eqb_neq; lia).
  unfold loop. induction fuel as [|fuel IH]; intros ma gap u found tail Hfuel; [lia|].
  cbn [Re.search_loop]. rewrite Hlen, andb_false_r. cbn [negb]. rewrite andb_true_r.
  destruct (Re.match_here ic flag lits u) eqn:Hm.
  - destruct (Re.search_loop ic flag lits fuel false [] (skipn (length lits) u))
      as [found' tail'] eqn:Eloop.
    intros [= <- <-].
    pose proof (match_here_fits u Hm) as Hfit.
    destruct u as [|c rest].
    { destruct lits; [congruence | discriminate]. }
    apply IH in Eloop; [|rewrite length_skipn; cbn [length] in *; lia].
    destruct Eloop as [Hj Hn].
    assert (Hskip : Re.one_pass ic flag lits f (length lits - 1) rest
                    = Re.one_pass ic flag lits f 0 (skipn (length lits) (c :: rest))).
    { pose proof (scan_skip ic (negb flag) lits f (length lits - 1) rest) as Hs.
      rewrite negb_involutive in Hs. rewrite Hs. f_equal.
      destruct lits as [|p l]; [congruence|]. simpl. now rewrite Nat.sub_0_r. }
    pose proof (scan_hit ic (negb flag) lits f c rest) as Hh.
    rewrite negb_involutive in Hh. rewrite (Hh Hm), Hskip. cbn [fst snd].
    unfold Re.joined in *. cbn [flat_map length]. rewrite <- !app_assoc.
    split; [now rewrite Hj | now rewrite Hn].
  - destruct u as [|c rest].
    + intros [= <- <-]. unfold Re.joined. cbn. rewrite app_nil_r. split; reflexivity.
    + intros Eloop. apply IH in Eloop; [|cbn [length] in *; lia].
      destruct Eloop as [Hj Hn].
      pose proof (scan_miss ic (negb flag) lits f c rest) as Hmiss.
      rewrite negb_involutive in Hmiss. rewrite (Hmiss Hm). cbn [fst snd].
      split; [now rewrite Hj, <- app_assoc | exact Hn].
Qed.

Lemma matches_one_pass (f : text -> text) (s : text) :
  Re.joined f (fst (Re.matches ic flag lits s)) (snd (Re.matches ic flag lits s))
  = fst (Re.one_pass ic flag lits f 0 s)
  /\ length (fst (Re.matches ic flag lits s)) = snd (Re.one_pass ic flag lits f 0 s).
Proof.
  unfold Re.matches.
  destruct (Re.search_loop ic flag lits (2 * length s + 2) false [] s)
    as [found tail] eqn:E.
  apply (search_loop_one_pass f) in E; [exact E | lia].
Qed.

End LoopFacts.

(** For a find-term that is not empty [subn] is the pass over the
    subject. *)
Lemma subn_one_pass (ic : N -> N -> bool) (find repl s : text) (flag : bool)
  (f : text -> text) :
  find <> [] ->
  Re.filter_of repl = Ok f ->
  Re.subn ic (Re.mkPattern find flag) repl s = Ok (Re.one_pass ic flag find f 0 s).
Proof.
  intros Hne Hf. unfold Re.subn. rewrite Hf. cbn [bind Re.lits Re.ignorecase].
  destruct (matches_one_pass ic flag find Hne f s) as [Hj Hn].
  destruct (Re.matches ic flag find s) as [found tail]. cbn [fst snd] in *.
  rewrite Hj, Hn. now destruct (Re.one_pass ic flag find f 0 s).
Qed.

(** With a replacement that has no backslash the matcher returns, and
    what it returns is the pass with the replacement put in as it is. *)
Lemma replace_text_plain (L : Lib) (s find replace : text) (case_sensitive : bool) :
  find <> [] ->
  existsb (N.eqb Re.BACKSLASH) replace = false ->
  replace_text L s find replace case_sensitive
  = Ok (Re.one_pass (ic L) (negb case_sensitive) find (fun _ => replace) 0 s).
Proof.
  intros Hne H. rewrite replace_text_subn.
  apply subn_one_pass; [exact Hne | exact (filter_of_plain _ H)].
Qed.

Lemma replace_text_scan (L : Lib) (s find replace out : text) (case_sensitive : bool)
  (n : nat) :
  find <> [] ->
  replace_text L s find replace case_sensitive = Ok (out, n) ->
  exists f,
    Re.filter_of replace = Ok f
    /\ Re.one_pass (ic L) (negb case_sensitive) find f 0 s = (out, n).
Proof.
  intros Hne. rewrite replace_text_subn.
  destruct (Re.filter_of replace) as [f|x] eqn:Ef.
  - rewrite (subn_one_pass _ _ _ _ _ f Hne Ef). intros [= H].
    exists f. split; [reflexivity | exact H].
  - unfold Re.subn. rewrite Ef. discriminate.
Qed.

Lemma match_here_starts_with (ic : N -> N -> bool) (find s : text) :
  Re.match_here ic false find s = starts_with find s.
Proof.
  revert s. induction find as [|p f IH]; intros [|c s]; reflexivity.
Qed.

(** With case sensitivity, a text in which the find-term does not occur
    goes through the scan as it is. *)
Lemma scan_not_contained (ic : N -> N -> bool) (find : text) (f : text -> text)
  (s : text) :
  find <> [] ->
  str_contains find s = false ->
  Re.one_pass ic false find f 0 s = (s, 0).
Proof.
  intros Hne. change (Re.one_pass ic false) with (Re.one_pass ic (negb true)).
  induction s as [|c s IH]; intros H.
  - exact (scan_nil ic true find f 0).
  - cbn [str_contains] in H. apply orb_false_iff in H as [Hhere Hrest].
    rewrite <- (match_here_starts_with ic) in Hhere.
    rewrite (scan_miss ic true find f c s Hhere).
    rewrite (IH Hrest). reflexivity.
Qed.

(** The count of [count_occurrences] is the count of [replace_text]. *)
Lemma count_occurrences_replace_text (L : Lib) (s find replace out : text)
  (case_sensitive : bool) (n : nat) :
  find <> [] ->
  replace_text L s find replace case_sensitive = Ok (out, n) ->
  count_occurrences L s find case_sensitive = Ok n.
Proof.
  intros Hne Hr. destruct (replace_text_scan _ _ _ _ _ _ _ Hne Hr) as [f [_ Hp]].
  unfold count_occurrences, Re.compile.
  rewrite parse_literals_escape. cbn [option_map]. f_equal.
  unfold Re.findall. rewrite length_map. cbn [Re.lits Re.ignorecase].
  replace (if case_sensitive then false else true) with (negb case_sensitive)
    by now destruct case_sensitive.
  rewrite (proj2 (matches_one_pass (ic L) (negb case_sensitive) find Hne f s)).
  now rewrite Hp.
Qed.

(** When the matcher counts nothing it returns the text it was given. *)
Lemma replace_text_count_zero (L : Lib) (s find replace out : text)
  (case_sensitive : bool) :
  find <> [] ->
  replace_text L s find replace case_sensitive = Ok (out, 0) ->
  out = s.
Proof.
  intros Hne Hr. destruct (replace_text_scan _ _ _ _ _ _ _ Hne Hr) as [f [_ H]].
  pose proof (scan_count_zero (ic L) case_sensitive find f s 0) as Hz.
  rewrite H in Hz. exact (Hz eq_refl).
Qed.

Lemma substituted_length (ic : N -> N -> bool) (case_sensitive : bool)
  (find repl s out : text) (n : nat) :
  substituted ic case_sensitive find repl s out n ->
  length out + n * length find = length s + n * length repl.
Proof.
  induction 1 as [s _ | gap m rest out n _ Hm _ _ IH]; [lia|].
  rewrite !length_app, Hm. lia.
Qed.

(** X1: for a find-term that is not empty and a replacement without a
    backslash the matcher returns the text with the occurrences replaced
    leftmost first and without overlap, and their number. *)
Lemma replace_text_plain_spec (L : Lib) (s find replace : text) (case_sensitive : bool) :
  find <> [] ->
  existsb (N.eqb Re.BACKSLASH) replace = false ->
  exists out n,
    replace_text L s find replace case_sensitive = Ok (out, n)
    /\ occurrence_count (ic L) case_sensitive find s n
    /\ substituted (ic L) case_sensitive find replace s out n.
Proof.
  intros Hne Hplain. rewrite (replace_text_plain _ _ _ _ _ Hne Hplain).
  destruct (Re.one_pass (ic L) (negb case_sensitive) find (fun _ => replace) 0 s)
    as [out n] eqn:E.
  exists out, n. split; [reflexivity|]. split.
  - replace n with (snd (Re.one_pass (ic L) (negb case_sensitive) find (fun _ => replace) 0 s))
      by now rewrite E.
    apply scan_occurrence_count. exact Hne.
  - pose proof (scan_substituted (ic L) case_sensitive find Hne replace s) as H.
    rewrite E in H. exact H.
Qed.

(** C1 (the code departs from it): the find-term is escaped and matched
    as text, but the replacement is handed to [subn] as it is, and [subn]
    reads a replacement with a backslash as a template.  Replacing "cat" by
    the two characters backslash, n in "a cat" gives "a " and a line feed,
    which is not the text with the occurrence replaced by the replacement;
    with a lone backslash as replacement the matcher raises and returns
    neither text nor count. *)
Theorem replace_text_template_escape (L : Lib) :
  replace_text L (txt "a cat") (txt "cat") (txt "\n") true = Ok ([97; 32; 10]%N, 1)
  /\ ~ substituted (ic L) true (txt "cat") (txt "\n") (txt "a cat") [97; 32; 10]%N 1
  /\ replace_text L (txt "a cat") (txt "cat") (txt "\") true = Raise TemplateError.
Proof.
  split; [|split].
  - rewrite replace_text_subn. reflexivity.
  - intros H. apply substituted_length in H. simpl in H. discriminate.
  - rewrite replace_text_subn. reflexivity.
Qed.

(** C3, as the specification has it, fails: without case sensitivity the
    identity replacement of "apple" turns "Apple" into "apple". *)
Lemma identity_replacement_changes_case :
  replace_text demo_lib (txt "Apple") (txt "apple") (txt "apple") false
  = Ok (txt "apple", 1)
  /\ txt "apple" <> txt "Apple".
Proof. split; [reflexivity | discriminate]. Qed.

(** C3 (amended): for a find-term that is not empty and has no backslash,
    replacing it by itself returns a text and the number of non-overlapping
    occurrences of the find-term under the case sensitivity in force.  The
    text is the input with these occurrences, leftmost first, each replaced
    by the find-term as it is written, and nothing else changed.  With case
    sensitivity it is the input; without, it has the length of the input
    and is the input character by character up to the case of the
    letters. *)
Theorem identity_replacement (L : Lib) (s find : text) (case_sensitive : bool) :
  find <> [] ->
  existsb (N.eqb Re.BACKSLASH) find = false ->
  exists out n,
    replace_text L s find find case_sensitive = Ok (out, n)
    /\ occurrence_count (ic L) case_sensitive find s n
    /\ substituted (ic L) case_sensitive find find s out n
    /\ (case_sensitive = true -> out = s)
    /\ length out = length s
    /\ same_up_to_case (ic L) out s.
Proof.
  intros Hne Hplain. rewrite (replace_text_plain _ _ _ _ _ Hne Hplain).
  destruct (Re.one_pass (ic L) (negb case_sensitive) find (fun _ => find) 0 s)
    as [out n] eqn:E.
  exists out, n. split; [reflexivity|].
  assert (Hout : out = fst (Re.one_pass (ic L) (negb case_sensitive) find (fun _ => find) 0 s))
    by now rewrite E.
  assert (Hn : n = snd (Re.one_pass (ic L) (negb case_sensitive) find (fun _ => find) 0 s))
    by now rewrite E.
  assert (Hsame : same_up_to_case (ic L) out s).
  { rewrite Hout. unfold same_up_to_case.
    apply (scan_related (ic L) case_sensitive find Hne
             (fun r c => r = c \/ ic L r c = true) (fun _ => find) s).
    + intros c. now left.
    + intros u Hu. apply (match_here_related (ic L) case_sensitive find) in Hu.
      eapply Forall2_impl; [|exact Hu].
      intros p c Hpc. unfold Re.char_match in Hpc.
      destruct case_sensitive; simpl in Hpc; [left; now apply N.eqb_eq | now right]. }
  split; [|split; [|split; [|split]]].
  - rewrite Hn. apply scan_occurrence_count. exact Hne.
  - pose proof (scan_substituted (ic L) case_sensitive find Hne find s) as H.
    rewrite E in H. exact H.
  - intros ->. rewrite Hout. apply Forall2_eq_same.
    apply (scan_related (ic L) true find Hne eq (fun _ => find) s).
    + reflexivity.
    + intros u Hu. apply (match_here_related (ic L) true find) in Hu.
      eapply Forall2_impl; [|exact Hu].
      intros p c Hpc. simpl in Hpc. now apply N.eqb_eq.
  - exact (Forall2_length Hsame).
  - exact Hsame.
Qed.

Lemma identity_replacement_witness :
  exists out n,
    replace_text demo_lib (txt "An apple, an Apple") (txt "apple") (txt "apple") false
    = Ok (out, n)
    /\ occurrence_count ascii_ic false (txt "apple") (txt "An apple, an Apple") n
    /\ substituted ascii_ic false (txt "apple") (txt "apple")
         (txt "An apple, an Apple") out n
    /\ (false = true -> out = txt "An apple, an Apple")
    /\ length out = length (txt "An apple, an Apple")
    /\ same_up_to_case ascii_ic out (txt "An apple, an Apple").
Proof.
  apply (identity_replacement demo_lib (txt "An apple, an Apple") (txt "apple") false).
  - discriminate.
  - reflexivity.
Defined.

(** ** The XML handler *)

Lemma Element_induction (P : Element -> Prop) :
  (forall tag attrib text_ tail children,
      Forall P children -> P (Elem tag attrib text_ tail children)) ->
  forall e, P e.
Proof.
  intros step. fix IH 1. intros [tag attrib text_ tail children].
  apply step. induction children as [|child more IHmore]; constructor.
  - apply IH.
  - exact IHmore.
Qed.

Section XmlFacts.

Variable L : Lib.
Variables (find replace : text) (case_sensitive : bool).

Let visit := replace_text_elem L find replace case_sensitive.
Let on_text := text_step L find replace case_sensitive.

Lemma visit_unfold room' tag attrib text_ tail children count :
  visit (S room') (Elem tag attrib text_ tail children) count
  = ('(text', count) <- on_text room' text_ count ;;
     '(children', count) <- for_each_child (visit room') children count ;;
     Ok (Elem tag attrib text' tail children', count)).
Proof. reflexivity. Qed.

Lemma visit_no_room (e : Element) (count : nat) :
  visit 0 e count = Raise RecursionError.
Proof. destruct e; reflexivity. Qed.

Lemma visit_map_tail (change : option text -> option text) (e : Element) :
  forall room count,
    visit room (map_tail change e) count
    = result_map (fun '(e', n) => (map_tail change e', n)) (visit room e count).
Proof.
  induction e as [tag attrib text_ tail children IH] using Element_induction.
  intros [|room'] count; [reflexivity|]. cbn [map_tail]. rewrite !visit_unfold.
  destruct (on_text room' text_ count) as [[text' count1]|x]; [|reflexivity].
  cbn [bind].
  assert (Hch : forall c,
    for_each_child (visit room') (map (map_tail change) children) c
    = result_map (fun '(l, n) => (map (map_tail change) l, n))
        (for_each_child (visit room') children c)).
  { induction IH as [|child more Hchild _ IHmore]; intros c; [reflexivity|].
    cbn [map for_each_child]. rewrite Hchild.
    destruct (visit room' child c) as [[child' c1]|x]; [|reflexivity].
    cbn [result_map bind]. rewrite IHmore.
    destruct (for_each_child (visit room') more c1) as [[more' c2]|x]; reflexivity. }
  rewrite Hch.
  destruct (for_each_child (visit room') children count1) as [[children' count2]|x];
    reflexivity.
Qed.

Lemma visit_strip_text (e : Element) :
  forall room count e' count',
    visit room e count = Ok (e', count') -> strip_text e' = strip_text e.
Proof.
  induction e as [tag attrib text_ tail children IH] using Element_induction.
  intros [|room'] count e' count'; [discriminate|]. rewrite visit_unfold.
  destruct (on_text room' text_ count) as [[text' count1]|x]; [|discriminate].
  cbn [bind].
  assert (Hch : forall c l c',
    for_each_child (visit room') children c = Ok (l, c') ->
    map strip_text l = map strip_text children).
  { induction IH as [|child more Hchild _ IHmore]; intros c l c'.
    - simpl. intros [= <- _]. reflexivity.
    - cbn [for_each_child].
      destruct (visit room' child c) as [[child' c1]|x] eqn:Ech; [|discriminate].
      cbn [bind].
      destruct (for_each_child (visit room') more c1) as [[more' c2]|x] eqn:Emore;
        [|discriminate].
      cbn [bind]. intros [= <- _]. cbn [map].
      rewrite (Hchild _ _ _ _ Ech), (IHmore _ _ _ Emore). reflexivity. }
  destruct (for_each_child (visit room') children count1)
    as [[children' count2]|x] eqn:Ech; [|discriminate].
  cbn [bind]. intros [= <- _]. cbn [strip_text].
  rewrite (Hch _ _ _ Ech). reflexivity.
Qed.

Lemma strip_text_tails (e e' : Element) :
  strip_text e' = strip_text e -> tails e' = tails e.
Proof.
  revert e'.
  induction e as [tag attrib text_ tail children IH] using Element_induction.
  intros [tag' attrib' text_' tail' children']. cbn [strip_text tails].
  intros [= _ _ -> Hch]. f_equal.
  revert children' Hch.
  induction IH as [|child more Hchild _ IHmore]; intros [|child' more'];
    cbn [map]; try discriminate; [reflexivity|].
  intros [= Hc Hm]. cbn [flat_map].
  rewrite (Hchild _ Hc), (IHmore _ Hm). reflexivity.
Qed.

(** With case sensitivity, and room for the frames of the matcher, the
    question asked before the matcher is called changes nothing: on a text
    that is not empty the step is what the matcher returns. *)
Lemma text_step_case_sensitive (room' : nat) (t : text) (count : nat) :
  find <> [] ->
  existsb (N.eqb Re.BACKSLASH) replace = false ->
  matcher_frames L <= room' ->
  t <> [] ->
  text_step L find replace true room' (Some t) count
  = ('(out, n) <- replace_text L t find replace true ;; Ok (Some out, count + n)).
Proof.
  intros Hne Hplain Hroom Ht. unfold text_step.
  apply Nat.leb_le in Hroom. rewrite Hroom.
  destruct t as [|c t]; [congruence|]. cbn [truthy andb].
  destruct (str_contains find (c :: t)) eqn:Hc; [reflexivity|].
  rewrite (replace_text_plain L _ _ _ _ Hne Hplain). cbn [negb bind].
  rewrite (scan_not_contained (ic L) find _ (c :: t) Hne Hc).
  now rewrite Nat.add_0_r.
Qed.

End XmlFacts.

(** C9: the handler rewrites the [text] of the elements and nothing else.
    A tree it returns has the tails of the input, each in its place, along
    with its tags, attributes and shape; and the tails are not read: with
    any other tails in the input the handler does the same to the texts,
    counts the same and leaves the other tails as they are. *)
Theorem xml_tail_untouched (L : Lib) (root : Element) (find replace : text)
  (case_sensitive : bool) :
  (forall root' count,
      replace_in_xml_tree L root find replace case_sensitive = Ok (root', count) ->
      strip_text root' = strip_text root /\ tails root' = tails root)
  /\ (forall change,
         replace_in_xml_tree L (map_tail change root) find replace case_sensitive
         = result_map (fun '(root', count) => (map_tail change root', count))
             (replace_in_xml_tree L root find replace case_sensitive)).
Proof.
  split.
  - intros root' count H.
    assert (Hs : strip_text root' = strip_text root)
      by exact (visit_strip_text L find replace case_sensitive root (stack_room L) 0
                  root' count H).
    split; [exact Hs | apply strip_text_tails; exact Hs].
  - intros change. apply visit_map_tail.
Qed.

Lemma xml_tail_untouched_witness :
  replace_in_xml_tree demo_lib tail_tree (txt "y") (txt "z") true = Ok (tail_tree, 0)
  /\ strip_text tail_tree = strip_text tail_tree
  /\ tails tail_tree = tails tail_tree.
Proof.
  assert (H : replace_in_xml_tree demo_lib tail_tree (txt "y") (txt "z") true
              = Ok (tail_tree, 0)) by reflexivity.
  split; [exact H|].
  exact (proj1 (xml_tail_untouched demo_lib tail_tree (txt "y") (txt "z") true)
           tail_tree 0 H).
Defined.

(** C2 (the code departs from it): before it calls the matcher the handler
    asks whether the find-term occurs in the text as it is written, whatever
    the case sensitivity.  Without case sensitivity, on [<a>Hello</a>] with
    "hello" to be replaced by "hi", the matcher finds one occurrence and
    returns "hi", and the handler leaves the element alone and counts
    nothing. *)
Theorem xml_guard_ignores_case_setting :
  replace_in_xml_tree demo_lib capital_tree (txt "hello") (txt "hi") false
  = Ok (capital_tree, 0)
  /\ replace_text demo_lib (txt "Hello") (txt "hello") (txt "hi") false
     = Ok (txt "hi", 1).
Proof. split; reflexivity. Qed.

(** The example of the specification, where the case is the same. *)
Example xml_scenario_c :
  replace_in_xml_tree demo_lib hello_tree (txt "hello") (txt "hi") false
  = Ok (Elem (txt "a") [] None None
          [Elem (txt "b") [] (Some (txt "hi world")) None [];
           Elem (txt "c") [] (Some (txt "hi")) None []], 2).
Proof. reflexivity. Qed.

(** ** The CSV handler *)

Lemma mapM_Forall2 {A B : Type} (f : A -> result B) (l : list A) (out : list B) :
  mapM f l = Ok out -> Forall2 (fun a b => f a = Ok b) l out.
Proof.
  revert out. induction l as [|a l IH]; intros out; simpl.
  - intros [= <-]. constructor.
  - destruct (f a) as [b|x] eqn:Ea; [|discriminate]. cbn [bind].
    destruct (mapM f l) as [bs|x]; [|discriminate]. cbn [bind].
    intros [= <-]. constructor; [exact Ea | apply IH; reflexivity].
Qed.

Lemma split_fst_map {A B : Type} (l : list (A * B)) : fst (List.split l) = map fst l.
Proof.
  induction l as [|[a b] l IH]; [reflexivity|].
  simpl. destruct (List.split l). simpl in *. now rewrite IH.
Qed.

Lemma csv_column_step_coerced (L : Lib) (find replace : text) (case_sensitive : bool)
  (col col' : Column) (count count' : nat) :
  csv_column_step L find replace case_sensitive col count = Ok (col', count') ->
  column_coerced L find replace case_sensitive col col'.
Proof.
  destruct col as [name values | name dtype raw]; cbn [csv_column_step column_coerced].
  - destruct (mapM _ (astype_str values)) as [pairs|x] eqn:Em; [|discriminate].
    cbn [bind]. destruct pairs as [|pr pairs]; [discriminate|].
    cbn [unzip_pairs bind].
    destruct (List.split (pr :: pairs)) as [new_values col_count] eqn:Es.
    intros [= <- _]. exists (map OStr new_values). split; [reflexivity|].
    apply mapM_Forall2 in Em.
    replace new_values with (map fst (pr :: pairs))
      by (rewrite <- split_fst_map, Es; reflexivity).
    clear Es. revert Em. generalize (pr :: pairs). clear.
    induction values as [|cell values IH]; intros l H; inversion H; subst.
    + constructor.
    + cbn [map]. constructor; [|apply IH; assumption].
      destruct y as [out n]. exists out, n. split; [assumption|].
      split; [reflexivity|]. intros Hne ->. f_equal.
      eapply replace_text_count_zero; eassumption.
  - intros [= <- _]. reflexivity.
Qed.

(** C10: every cell of every [object] column comes out as a string, the
    one the matcher returns for [str(cell)], whether or not the find-term
    occurs in it; the columns of the other dtypes come out as they are.  A
    missing value, whose [str] is "nan", so comes out as a string although
    nothing was found in it. *)
Theorem csv_object_cells_coerced (L : Lib) (df df' : DataFrame)
  (find replace : text) (case_sensitive : bool) (count : nat) :
  replace_in_csv_frame L df find replace case_sensitive = Ok (df', count) ->
  Forall2 (column_coerced L find replace case_sensitive) df df'.
Proof.
  unfold replace_in_csv_frame. generalize 0 as c.
  revert df' count. induction df as [|col more IH]; intros df' count c; simpl.
  - intros [= <- _]. constructor.
  - destruct (csv_column_step L find replace case_sensitive col c)
      as [[col' c1]|x] eqn:Ecol; [|discriminate].
    cbn [bind].
    destruct (csv_columns_loop L find replace case_sensitive more c1)
      as [[more' c2]|x] eqn:Emore; [|discriminate].
    cbn [bind]. intros [= <- _]. constructor.
    + exact (csv_column_step_coerced _ _ _ _ _ _ _ _ Ecol).
    + exact (IH _ _ _ Emore).
Qed.

Lemma csv_object_cells_coerced_witness :
  replace_in_csv_frame demo_lib gap_frame (txt "pear") (txt "plum") false
  = Ok ([ObjectColumn (txt "word") [OStr (txt "apple"); OStr (txt "nan")]], 0)
  /\ Forall2 (column_coerced demo_lib (txt "pear") (txt "plum") false)
       gap_frame [ObjectColumn (txt "word") [OStr (txt "apple"); OStr (txt "nan")]].
Proof.
  assert (H : replace_in_csv_frame demo_lib gap_frame (txt "pear") (txt "plum") false
              = Ok ([ObjectColumn (txt "word") [OStr (txt "apple"); OStr (txt "nan")]], 0))
    by reflexivity.
  split; [exact H|].
  exact (csv_object_cells_coerced demo_lib gap_frame _ (txt "pear") (txt "plum") false 0 H).
Defined.

(** C4 (the code departs from it): on a table of headers without rows the
    handler raises.  Its first column is of dtype [object] and has no cell,
    the list of the matcher's results is empty, and unpacking the [zip] of
    no pair into the two targets fails with [ValueError]. *)
Theorem csv_header_only_raises (L : Lib) (file : UploadedFile) (headers : list text)
  (find replace : text) (case_sensitive : bool) :
  headers <> [] ->
  read_csv L (file_read file) = Some (header_only headers) ->
  replace_in_csv L file find replace case_sensitive = Raise ValueError.
Proof.
  intros Hne Hread. unfold replace_in_csv. rewrite Hread.
  destruct headers as [|h more]; [congruence|]. reflexivity.
Qed.

Lemma csv_header_only_raises_witness :
  replace_in_csv demo_lib
    (mkFile (txt "empty.csv") (render_csv (header_only [txt "a"; txt "b"])) 0)
    (txt "apple") (txt "REPL") false
  = Raise ValueError.
Proof.
  apply (csv_header_only_raises demo_lib _ [txt "a"; txt "b"]).
  - discriminate.
  - reflexivity.
Defined.

(** The two examples of the specification on a column of three words. *)
Example csv_scenario_a :
  replace_in_csv_frame demo_lib fruit_frame (txt "apple") (txt "REPL") false
  = Ok ([ObjectColumn (txt "fruit")
           [OStr (txt "REPL"); OStr (txt "banana"); OStr (txt "REPL")];
         NumericColumn (txt "stock") int64 [3; 0; 12]%N], 2).
Proof. reflexivity. Qed.

Example csv_scenario_b :
  replace_in_csv_frame demo_lib fruit_frame (txt "apple") (txt "REPL") true
  = Ok ([ObjectColumn (txt "fruit")
           [OStr (txt "REPL"); OStr (txt "banana"); OStr (txt "Apple")];
         NumericColumn (txt "stock") int64 [3; 0; 12]%N], 1).
Proof. reflexivity. Qed.

(** ** The PDF handler *)

Section PdfFacts.

Variable L : Lib.
Variables (find replace : text) (case_sensitive : bool).

Let hit := rewritten L find replace case_sensitive.
Let step := pdf_block_step L find replace case_sensitive.
Let loop := pdf_blocks_loop L find replace case_sensitive.

(** One block: a block that is not rewritten leaves the page as it is, a
    rewritten one has its rectangle cleared, after the annotations that
    were waiting. *)
Lemma pdf_block_step_spec (page page' : Page) (block : Block) (c c' : nat) :
  step (page, c) block = Ok (page', c') ->
  c' = c + text_count L find replace case_sensitive [block]
  /\ blocks page' = blocks page
  /\ if hit block
     then cleared page' = cleared page ++ redact_annots page ++ [Rect_of_block block]
          /\ redact_annots page' = []
     else page' = page.
Proof.
  unfold step, pdf_block_step, hit, rewritten, text_count, block_count.
  unfold list_sum. cbn [map fold_right].
  destruct (Nat.eqb (block_type block) 0).
  - destruct (replace_text L (btext block) find replace case_sensitive)
      as [[modified n]|x]; [|discriminate].
    cbn [bind andb]. destruct (0 <? n).
    + intros [= <- <-]. cbn.
      repeat split; try reflexivity; lia.
    + intros [= <- <-]. repeat split; try reflexivity; lia.
  - intros [= <- <-]. cbn [andb]. repeat split; lia.
Qed.

Lemma pdf_blocks_loop_spec (block_list : list Block) :
  forall page page' c c',
    loop block_list (page, c) = Ok (page', c') ->
    c' = c + text_count L find replace case_sensitive block_list
    /\ blocks page' = blocks page
    /\ match filter hit block_list with
       | [] => page' = page
       | b :: bs =>
           cleared page' = cleared page ++ redact_annots page
                             ++ map Rect_of_block (b :: bs)
           /\ redact_annots page' = []
       end.
Proof.
  induction block_list as [|block more IH]; intros page page' c c'.
  - cbn. intros [= <- <-]. repeat split; lia.
  - unfold loop. cbn [pdf_blocks_loop].
    destruct (pdf_block_step L find replace case_sensitive (page, c) block)
      as [[page1 c1]|x] eqn:Estep; [|discriminate].
    cbn [bind]. intros Hloop.
    apply pdf_block_step_spec in Estep as [Hc1 [Hb1 Hhit]].
    apply IH in Hloop as [Hc' [Hb' Hrest]].
    split; [|split].
    + rewrite Hc', Hc1. unfold text_count, list_sum. cbn [map fold_right]. lia.
    + congruence.
    + cbn [filter]. destruct (hit block).
      * destruct Hhit as [Hcl Han].
        destruct (filter hit more) as [|b bs].
        -- subst page'. split; [exact Hcl | exact Han].
        -- destruct Hrest as [Hcl' Han']. split; [|exact Han'].
           rewrite Hcl', Hcl, Han. cbn [map app].
           rewrite <- !app_assoc. reflexivity.
      * subst page1. exact Hrest.
Qed.

Lemma pdf_page_cleared (page page' : Page) (c c' : nat) :
  loop (blocks page) (page, c) = Ok (page', c') ->
  cleared page' = cleared page ++ cleared_in_run L find replace case_sensitive page.
Proof.
  intros H. apply pdf_blocks_loop_spec in H as [_ [_ H]].
  unfold cleared_in_run. fold hit.
  destruct (filter hit (blocks page)) as [|b bs].
  - subst page'. now rewrite app_nil_r.
  - exact (proj1 H).
Qed.

End PdfFacts.

Lemma redacted_app (page page' : Page) (run : list Rect) (block : Block) :
  cleared page' = cleared page ++ run ->
  redacted page' block
  = redacted page block || existsb (fun r => overlaps r (Rect_of_block block)) run.
Proof. intros H. unfold redacted. rewrite H. apply existsb_app. Qed.

(** C8, as the specification has it, fails: the heading is rewritten and
    its rectangle cleared; the line under it, in which nothing was found,
    and the picture behind it, which is no text, lie partly in that
    rectangle and lose what they have there. *)
Lemma pdf_redaction_reaches_other_blocks :
  exists page',
    replace_in_pdf_doc demo_lib [crowded_page] (txt "hello") (txt "hi") true
    = Ok ([page'], 1)
    /\ block_count demo_lib (txt "hello") (txt "hi") true close_block = 0
    /\ redacted crowded_page close_block = false
    /\ redacted page' close_block = true
    /\ block_type picture_block = 1
    /\ redacted crowded_page picture_block = false
    /\ redacted page' picture_block = true.
Proof. eexists. repeat split. Qed.

Lemma pdf_block_step_inserted (L : Lib) (find replace : text) (case_sensitive : bool)
  (page page' : Page) (block : Block) (c c' : nat) :
  pdf_block_step L find replace case_sensitive (page, c) block = Ok (page', c') ->
  inserted page'
  = inserted page
      ++ if rewritten L find replace case_sensitive block
         then [reinserted L find replace case_sensitive block]
         else [].
Proof.
  unfold pdf_block_step, rewritten, block_count, reinserted, matcher_text.
  destruct (Nat.eqb (block_type block) 0).
  - destruct (replace_text L (btext block) find replace case_sensitive)
      as [[modified n]|x]; [|discriminate].
    cbn [bind andb]. destruct (0 <? n); intros [= <- _]; [reflexivity|].
    now rewrite app_nil_r.
  - intros [= <- _]. cbn [andb]. now rewrite app_nil_r.
Qed.

Lemma pdf_blocks_loop_inserted (L : Lib) (find replace : text) (case_sensitive : bool)
  (block_list : list Block) :
  forall page page' c c',
    pdf_blocks_loop L find replace case_sensitive block_list (page, c) = Ok (page', c') ->
    inserted page'
    = inserted page
        ++ map (reinserted L find replace case_sensitive)
             (filter (rewritten L find replace case_sensitive) block_list).
Proof.
  induction block_list as [|block more IH]; intros page page' c c'.
  - cbn. intros [= <- _]. now rewrite app_nil_r.
  - cbn [pdf_blocks_loop filter].
    destruct (pdf_block_step L find replace case_sensitive (page, c) block)
      as [[page1 c1]|x] eqn:Estep; [|discriminate].
    cbn [bind]. intros H. apply IH in H. rewrite H.
    rewrite (pdf_block_step_inserted _ _ _ _ _ _ _ _ _ Estep).
    destruct (rewritten L find replace case_sensitive block); cbn [map];
      now rewrite <- app_assoc.
Qed.

Lemma pdf_pages_loop_inserted (L : Lib) (find replace : text) (case_sensitive : bool)
  (doc : PdfDoc) :
  forall doc' c c',
    pdf_pages_loop L find replace case_sensitive doc c = Ok (doc', c') ->
    Forall2 (fun page page' =>
               inserted page'
               = inserted page
                   ++ map (reinserted L find replace case_sensitive)
                        (filter (rewritten L find replace case_sensitive) (blocks page)))
            doc doc'.
Proof.
  induction doc as [|page more IH]; intros doc' c c'.
  - cbn. intros [= <- _]. constructor.
  - cbn [pdf_pages_loop]. unfold get_text_blocks.
    destruct (pdf_blocks_loop L find replace case_sensitive (blocks page) (page, c))
      as [[page1 c1]|x] eqn:Epage; [|discriminate].
    cbn [bind].
    destruct (pdf_pages_loop L find replace case_sensitive more c1)
      as [[more' c2]|x] eqn:Emore; [|discriminate].
    cbn [bind]. intros [= <- _]. constructor.
    + exact (pdf_blocks_loop_inserted _ _ _ _ _ _ _ _ _ Epage).
    + exact (IH _ _ _ Emore).
Qed.

Lemma pdf_pages_loop_spec (L : Lib) (find replace : text) (case_sensitive : bool)
  (doc : PdfDoc) :
  forall doc' c c',
    pdf_pages_loop L find replace case_sensitive doc c = Ok (doc', c') ->
    c' = c + list_sum (map (fun page =>
                              text_count L find replace case_sensitive (blocks page)) doc)
    /\ Forall2 (page_preserved L find replace case_sensitive) doc doc'.
Proof.
  induction doc as [|page more IH]; intros doc' c c'.
  - cbn. intros [= <- <-]. split; [lia | constructor].
  - cbn [pdf_pages_loop]. unfold get_text_blocks.
    destruct (pdf_blocks_loop L find replace case_sensitive (blocks page) (page, c))
      as [[page1 c1]|x] eqn:Epage; [|discriminate].
    cbn [bind].
    destruct (pdf_pages_loop L find replace case_sensitive more c1)
      as [[more' c2]|x] eqn:Emore; [|discriminate].
    cbn [bind]. intros [= <- <-].
    apply IH in Emore as [Hc2 Hmore].
    pose proof (pdf_page_cleared _ _ _ _ _ _ _ _ Epage) as Hcl.
    pose proof (pdf_blocks_loop_inserted _ _ _ _ _ _ _ _ _ Epage) as Hins.
    apply pdf_blocks_loop_spec in Epage as [Hc1 [Hb1 Hannots]].
    split.
    + rewrite Hc2, Hc1. unfold list_sum. cbn [map fold_right]. lia.
    + constructor; [|exact Hmore].
      split; [exact Hb1|]. split; [exact Hcl|]. split; [exact Hins|]. split.
      { destruct (filter (rewritten L find replace case_sensitive) (blocks page))
          as [|b bs]; [now subst page1 | exact (proj2 Hannots)]. }
      intros block _ _ Hclear. rewrite (redacted_app _ _ _ block Hcl).
      replace (existsb _ _) with false; [apply orb_false_r|].
      symmetry. apply not_true_is_false. rewrite existsb_exists.
      intros [r [Hr Ho]]. rewrite (Hclear r Hr) in Ho. discriminate.
Qed.

(** C8 (amended): when the handler returns, its count is the sum of the
    matcher's counts on the text blocks, the image blocks being passed
    over.  On every page the rectangles cleared are those of the text
    blocks with a count above 0, with those of the redaction annotations
    that were waiting on the page when there is such a block, and no
    others; the texts written are, for the text blocks with a count above
    0 and no others, in their order, the text the matcher made of the
    block, at the top left corner of its rectangle in size 11; and a block
    with count 0, or an image block, whose rectangle overlaps none of the
    cleared ones has lost nothing. *)
Theorem pdf_untouched_blocks (L : Lib) (doc doc' : PdfDoc) (find replace : text)
  (case_sensitive : bool) (total_count : nat) :
  replace_in_pdf_doc L doc find replace case_sensitive = Ok (doc', total_count) ->
  total_count
  = list_sum (map (fun page => text_count L find replace case_sensitive (blocks page)) doc)
  /\ Forall2 (page_preserved L find replace case_sensitive) doc doc'.
Proof.
  unfold replace_in_pdf_doc. intros H.
  apply pdf_pages_loop_spec in H as [Hc Hpages]. split; [exact Hc | exact Hpages].
Qed.

Lemma pdf_untouched_blocks_witness :
  exists doc',
    replace_in_pdf_doc demo_lib [letter_page] (txt "hello") (txt "hi") true
    = Ok (doc', 1)
    /\ 1 = list_sum (map (fun page =>
                            text_count demo_lib (txt "hello") (txt "hi") true (blocks page))
                         [letter_page])
    /\ Forall2 (page_preserved demo_lib (txt "hello") (txt "hi") true)
         [letter_page] doc'.
Proof.
  eexists. split; [reflexivity|].
  apply (pdf_untouched_blocks demo_lib [letter_page] _ (txt "hello") (txt "hi") true 1).
  reflexivity.
Defined.

(** ** The batch loop *)

Lemma dict_get_set_same {V : Type} (k : text) (v : V) (d : list (text * V)) :
  dict_get k (dict_set k v d) = Some v.
Proof.
  induction d as [|[k' v'] d IH]; simpl.
  - now rewrite text_eqb_refl.
  - destruct (text_eqb k' k) eqn:E; simpl; rewrite E; [reflexivity | exact IH].
Qed.

Lemma dict_set_fresh {V : Type} (k : text) (v : V) (d : list (text * V)) :
  ~ In k (map fst d) -> dict_set k v d = d ++ [(k, v)].
Proof.
  induction d as [|[k' v'] d IH]; simpl; intros H; [reflexivity|].
  destruct (text_eqb k' k) eqn:E.
  - apply text_eqb_eq in E. tauto.
  - rewrite IH; [reflexivity | tauto].
Qed.

Section BatchFacts.

Variable L : Lib.
Variables (find_word replace_word : text) (case_sensitive : bool).
Variable temp_dir : text.

Let outcome := transform L find_word replace_word case_sensitive temp_dir.
Let added := members L find_word replace_word case_sensitive temp_dir.
Let said := messages L find_word replace_word case_sensitive temp_dir.
Let noted := summarise L find_word replace_word case_sensitive temp_dir.
Let turn := process_file L find_word replace_word case_sensitive temp_dir.
Let run := process_files L find_word replace_word case_sensitive temp_dir.

(** A save that is written in full is in the file its path names; one
    that is not raises. *)
Lemma write_out_spec (file_type : text) (o : SaveOutcome) (output_path : text)
  (files : list (text * bytes)) :
  match saved_bytes L file_type o output_path with
  | Ok out =>
      exists f,
        locate L output_path = Some f
        /\ write_out L file_type o output_path files = (dict_set f out files, Ok tt)
  | Raise e => snd (write_out L file_type o output_path files) = Raise e
  end.
Proof.
  unfold saved_bytes, write_out.
  destruct o as [content | partial e | e]; [| |reflexivity];
    destruct (locate L output_path) as [f|]; try reflexivity.
  exists f. split; reflexivity.
Qed.

Lemma save_then_spec (content : Content) (o : SaveOutcome)
  (output_path file_type : text) (files : list (text * bytes)) (count : nat) :
  save_modified_file L content output_path file_type files
  = write_out L file_type o output_path files ->
  match saved_bytes L file_type o output_path with
  | Ok out =>
      exists f,
        locate L output_path = Some f
        /\ save_then L content output_path file_type files count
           = (dict_set f out files, Ok (Some count))
  | Raise e => snd (save_then L content output_path file_type files count) = Raise e
  end.
Proof.
  intros Hsave. unfold save_then. rewrite Hsave.
  pose proof (write_out_spec file_type o output_path files) as H.
  destruct (saved_bytes L file_type o output_path) as [out|e].
  - destruct H as [f [Hloc Hw]]. exists f. rewrite Hw. split; [exact Hloc | reflexivity].
  - destruct (write_out L file_type o output_path files) as [files' r]. cbn [snd] in *.
    now rewrite H.
Qed.

(** The branches, by what they end in. *)
Lemma dispatch_transform (file : UploadedFile) (files : list (text * bytes)) :
  let output_path := os_path_join temp_dir (file_name file) in
  match outcome file with
  | Ok (Some (out, count)) =>
      exists f,
        locate L output_path = Some f
        /\ dispatch L find_word replace_word case_sensitive file output_path files
           = (dict_set f out files, Ok (Some count))
  | Ok None =>
      dispatch L find_word replace_word case_sensitive file output_path files
      = (files, Ok None)
  | Raise e =>
      snd (dispatch L find_word replace_word case_sensitive file output_path files)
      = Raise e
  end.
Proof.
  intros output_path. unfold outcome, transform, dispatch. fold output_path.
  destruct (text_eqb (extension L (file_name file)) (txt "pdf")).
  { destruct (replace_in_pdf_fitz L file find_word replace_word case_sensitive)
      as [[doc count]|x]; [|reflexivity].
    cbn [bind].
    pose proof (save_then_spec (PdfContent doc) (pdf_save L doc) output_path
                  (txt "pdf") files count eq_refl) as H.
    destruct (saved_bytes L (txt "pdf") (pdf_save L doc) output_path); exact H. }
  destruct (text_eqb (extension L (file_name file)) (txt "csv")).
  { destruct (replace_in_csv L file find_word replace_word case_sensitive)
      as [[df count]|x]; [|reflexivity].
    cbn [bind].
    pose proof (save_then_spec (FrameContent df) (to_csv L df) output_path
                  (txt "csv") files count eq_refl) as H.
    destruct (saved_bytes L (txt "csv") (to_csv L df) output_path); exact H. }
  destruct (text_eqb (extension L (file_name file)) (txt "xml")).
  { destruct (replace_in_xml L file find_word replace_word case_sensitive)
      as [[tree count]|x]; [|reflexivity].
    cbn [bind].
    pose proof (save_then_spec (TreeContent tree) (ET_write L tree) output_path
                  (txt "xml") files count eq_refl) as H.
    destruct (saved_bytes L (txt "xml") (ET_write L tree) output_path); exact H. }
  destruct (text_eqb (extension L (file_name file)) (txt "xpt")); [|reflexivity].
  pose proof (save_then_spec (StreamContent (file_seek file 0))
                (Written (file_data file)) output_path (txt "xpt") files 0 eq_refl) as H.
  destruct (saved_bytes L (txt "xpt") (Written (file_data file)) output_path); exact H.
Qed.

(** One turn of the loop, by the outcome of the file. *)
Lemma process_file_spec (state : RunState) (file : UploadedFile) :
  zipf (turn state file) = zipf state ++ added file
  /\ replacements_summary (turn state file) = noted (replacements_summary state) file
  /\ shown (turn state file) = shown state ++ said file.
Proof.
  unfold turn, process_file.
  pose proof (dispatch_transform file (temp_files state)) as H. cbv zeta in H.
  unfold added, members, noted, summarise, said, messages. fold outcome.
  destruct (outcome file) as [[[out count]|]|x].
  - destruct H as [f [Hloc Hd]]. rewrite Hd. unfold zipf_write.
    rewrite Hloc, dict_get_set_same. cbn. rewrite app_nil_r. repeat split.
  - rewrite H. cbn. rewrite app_nil_r. repeat split.
  - destruct (dispatch L find_word replace_word case_sensitive file _ (temp_files state))
      as [files' r]. cbn [snd] in H. subst r. cbn. rewrite app_nil_r. repeat split.
Qed.

Lemma process_files_spec (uploaded_files : list UploadedFile) :
  forall state,
    zipf (run uploaded_files state) = zipf state ++ flat_map added uploaded_files
    /\ replacements_summary (run uploaded_files state)
       = fold_left noted uploaded_files (replacements_summary state)
    /\ shown (run uploaded_files state) = shown state ++ flat_map said uploaded_files.
Proof.
  induction uploaded_files as [|file more IH]; intros state.
  - cbn. rewrite !app_nil_r. repeat split.
  - change (run (file :: more) state) with (run more (turn state file)).
    destruct (IH (turn state file)) as [Hz [Hs Hm]].
    destruct (process_file_spec state file) as [Hz1 [Hs1 Hm1]].
    rewrite Hz, Hs, Hm, Hz1, Hs1, Hm1. cbn [flat_map fold_left].
    rewrite <- !app_assoc. repeat split.
Qed.

End BatchFacts.

Lemma filter_none {A : Type} (p : A -> bool) (l : list A) :
  (forall a, In a l -> p a = false) -> filter p l = [].
Proof.
  induction l as [|a l IH]; intros H; [reflexivity|].
  cbn [filter]. rewrite (H a (or_introl eq_refl)).
  apply IH. intros b Hb. apply H. now right.
Qed.

Section ReportFacts.

Variable L : Lib.
Variables (find_word replace_word : text) (case_sensitive : bool).
Variable temp_dir : text.

Let outcome := transform L find_word replace_word case_sensitive temp_dir.
Let said := messages L find_word replace_word case_sensitive temp_dir.
Let noted := summarise L find_word replace_word case_sensitive temp_dir.
Let listed := entries L find_word replace_word case_sensitive temp_dir.
Let item := outcome_item L find_word replace_word case_sensitive temp_dir.
Let run := process_files L find_word replace_word case_sensitive temp_dir.

Lemma entries_keys (file : UploadedFile) (k : text) :
  In k (map fst (listed file)) -> k = file_name file.
Proof.
  unfold listed, entries. destruct (transform _ _ _ _ _ file) as [[[out count]|]|x];
    simpl; intuition congruence.
Qed.

(** With names that differ, the summary is the list of the successful
    files with their counts, in the order of the batch. *)
Lemma summary_of_distinct_names (uploaded_files : list UploadedFile) :
  forall summary,
    NoDup (map file_name uploaded_files) ->
    (forall file, In file uploaded_files -> ~ In (file_name file) (map fst summary)) ->
    fold_left noted uploaded_files summary = summary ++ flat_map listed uploaded_files.
Proof.
  induction uploaded_files as [|file more IH]; intros summary Hnd Hfresh.
  - cbn. now rewrite app_nil_r.
  - cbn [fold_left flat_map map] in *. inversion Hnd as [|n ns Hnotin Hnd']; subst.
    assert (Hstep : noted summary file = summary ++ listed file).
    { unfold noted, summarise, listed, entries.
      destruct (transform _ _ _ _ _ file) as [[[out count]|]|x];
        try (now rewrite app_nil_r).
      apply dict_set_fresh. apply Hfresh. now left. }
    rewrite Hstep. rewrite IH; [now rewrite <- app_assoc | exact Hnd' |].
    intros g Hg Hin. rewrite map_app, in_app_iff in Hin. destruct Hin as [Hin|Hin].
    + apply (Hfresh g); [now right | exact Hin].
    + apply entries_keys in Hin. apply Hnotin. rewrite <- Hin.
      apply in_map. exact Hg.
Qed.

Lemma report_of_distinct_names (uploaded_files : list UploadedFile) :
  NoDup (map file_name uploaded_files) ->
  report (run uploaded_files initial_state)
  = flat_map said uploaded_files ++ summary_lines (flat_map listed uploaded_files).
Proof.
  intros Hnd. unfold report.
  destruct (process_files_spec L find_word replace_word case_sensitive temp_dir
              uploaded_files initial_state) as [_ [Hs Hm]].
  fold run in Hs, Hm. rewrite Hs, Hm. cbn [initial_state shown replacements_summary].
  fold noted. rewrite summary_of_distinct_names; [reflexivity | exact Hnd |].
  intros file _ [].
Qed.

Lemma said_mentions (n : text) (file : UploadedFile) :
  filter (mentions n) (said file)
  = if text_eqb (file_name file) n then said file else [].
Proof.
  unfold said, messages. destruct (transform _ _ _ _ _ file) as [[[out count]|]|x];
    cbn; destruct (text_eqb (file_name file) n); reflexivity.
Qed.

Lemma listed_mentions (n : text) (file : UploadedFile) :
  filter (mentions n) (summary_lines (listed file))
  = if text_eqb (file_name file) n then summary_lines (listed file) else [].
Proof.
  unfold listed, entries. destruct (transform _ _ _ _ _ file) as [[[out count]|]|x];
    cbn; destruct (text_eqb (file_name file) n); reflexivity.
Qed.

Lemma summary_lines_app (a b : list (text * nat)) :
  summary_lines (a ++ b) = summary_lines a ++ summary_lines b.
Proof. apply map_app. Qed.

Lemma filter_said (n : text) (uploaded_files : list UploadedFile) :
  filter (mentions n) (flat_map said uploaded_files)
  = flat_map said (filter (fun g => text_eqb (file_name g) n) uploaded_files).
Proof.
  induction uploaded_files as [|file more IH]; [reflexivity|].
  cbn [flat_map filter]. rewrite filter_app, said_mentions, IH.
  destruct (text_eqb (file_name file) n); reflexivity.
Qed.

Lemma filter_listed (n : text) (uploaded_files : list UploadedFile) :
  filter (mentions n) (summary_lines (flat_map listed uploaded_files))
  = summary_lines
      (flat_map listed (filter (fun g => text_eqb (file_name g) n) uploaded_files)).
Proof.
  induction uploaded_files as [|file more IH]; [reflexivity|].
  cbn [flat_map filter]. rewrite summary_lines_app, filter_app, listed_mentions, IH.
  destruct (text_eqb (file_name file) n); [|reflexivity].
  cbn [flat_map]. now rewrite summary_lines_app.
Qed.

Lemma filter_by_name (uploaded_files : list UploadedFile) (file : UploadedFile) :
  NoDup (map file_name uploaded_files) ->
  In file uploaded_files ->
  filter (fun g => text_eqb (file_name g) (file_name file)) uploaded_files = [file].
Proof.
  induction uploaded_files as [|g more IH]; intros Hnd Hin; [contradiction|].
  cbn [map] in Hnd. inversion Hnd as [|n ns Hnotin Hnd']; subst.
  cbn [filter]. destruct Hin as [-> | Hin].
  - rewrite text_eqb_refl. f_equal.
    apply filter_none. intros h Hh.
    destruct (text_eqb (file_name h) (file_name file)) eqn:E; [|reflexivity].
    apply text_eqb_eq in E. exfalso. apply Hnotin. rewrite <- E.
    apply in_map. exact Hh.
  - destruct (text_eqb (file_name g) (file_name file)) eqn:E.
    + apply text_eqb_eq in E. exfalso. apply Hnotin. rewrite E.
      apply in_map. exact Hin.
    + apply IH; assumption.
Qed.

Lemma said_listed_item (file : UploadedFile) :
  said file ++ summary_lines (listed file) = [item file].
Proof.
  unfold said, messages, listed, entries, item, outcome_item.
  destruct (transform _ _ _ _ _ file) as [[[out count]|]|x]; reflexivity.
Qed.

End ReportFacts.

(** C5, as the specification has it, fails: the summary is a dictionary
    keyed by the name of the file.  Two files of the same name that both
    succeed, the first with 2 replacements and the second with 1, leave
    one line in the report, with the count of the second; the outcome of
    the first is not to be seen. *)
Lemma same_name_one_line :
  report (process_files demo_lib (txt "apple") (txt "REPL") false (txt "/tmp/run")
            [fruit_file; fruit_file_again] initial_state)
  = [summary_line (txt "fruit.csv") 1]
  /\ outcome_item demo_lib (txt "apple") (txt "REPL") false (txt "/tmp/run") fruit_file
     = summary_line (txt "fruit.csv") 2.
Proof. split; reflexivity. Qed.

(** C5 (amended): in a batch of files whose names differ, every file has
    one item of the report that bears its name, and it is the outcome of
    that file: a line of the summary with its count when its branch ran to
    the end, the error message with the exception when something in the
    branch raised, the warning when its type is not supported.  The outcome
    is that of the file alone: the files before it, failed or not, do not
    change it, and the loop goes through the whole batch. *)
Theorem every_file_reported (L : Lib) (find_word replace_word : text)
  (case_sensitive : bool) (temp_dir : text) (uploaded_files : list UploadedFile) :
  NoDup (map file_name uploaded_files) ->
  forall file,
    In file uploaded_files ->
    filter (mentions (file_name file))
      (report (process_files L find_word replace_word case_sensitive temp_dir
                 uploaded_files initial_state))
    = [outcome_item L find_word replace_word case_sensitive temp_dir file].
Proof.
  intros Hnd file Hin.
  rewrite report_of_distinct_names by exact Hnd.
  rewrite filter_app, filter_said, filter_listed.
  rewrite (filter_by_name uploaded_files file Hnd Hin).
  cbn [flat_map]. rewrite !app_nil_r. apply said_listed_item.
Qed.

Lemma every_file_reported_witness :
  filter (mentions (file_name hello_file))
    (report (process_files demo_lib (txt "hello") (txt "hi") false (txt "/tmp/run")
               [fruit_file; broken_file; hello_file; notes_file; transport_file]
               initial_state))
  = [outcome_item demo_lib (txt "hello") (txt "hi") false (txt "/tmp/run") hello_file].
Proof.
  apply (every_file_reported demo_lib (txt "hello") (txt "hi") false (txt "/tmp/run")
           [fruit_file; broken_file; hello_file; notes_file; transport_file]).
  - repeat constructor; simpl; intuition discriminate.
  - simpl. tauto.
Defined.

(** The report of that batch, item by item. *)
Example report_of_five_files :
  report (process_files demo_lib (txt "hello") (txt "hi") false (txt "/tmp/run")
            [fruit_file; broken_file; hello_file; notes_file; transport_file]
            initial_state)
  = [error_processing (txt "broken.pdf") FileDataError;
     warning_unsupported (txt "notes.txt");
     summary_line (txt "fruit.csv") 0;
     summary_line (txt "hello.xml") 2;
     summary_line (txt "trial.XPT") 0].
Proof. reflexivity. Qed.

(** C6: a file whose processing raises adds nothing to the archive: the
    archive of a batch is the archive of the batch without that file.  For
    three files of which the second has the extension pdf and is not a PDF
    while the other two succeed, the archive has the two members of the
    first and the third, the page shows the error on the second, and the
    summary has the counts of the first and the third. *)
Theorem failed_file_not_archived (L : Lib) (find_word replace_word : text)
  (case_sensitive : bool) (temp_dir : text) :
  (forall before file after e,
      transform L find_word replace_word case_sensitive temp_dir file = Raise e ->
      zipf (process_files L find_word replace_word case_sensitive temp_dir
              (before ++ file :: after) initial_state)
      = zipf (process_files L find_word replace_word case_sensitive temp_dir
                (before ++ after) initial_state))
  /\ (forall f1 f2 f3 out1 count1 out3 count3,
         transform L find_word replace_word case_sensitive temp_dir f1 = Ok (Some (out1, count1)) ->
         extension L (file_name f2) = txt "pdf" ->
         fitz_open L (file_read f2) = None ->
         transform L find_word replace_word case_sensitive temp_dir f3 = Ok (Some (out3, count3)) ->
         let state := process_files L find_word replace_word case_sensitive temp_dir
                        [f1; f2; f3] initial_state in
         zipf state
         = [(zip_arcname L (file_name f1), out1); (zip_arcname L (file_name f3), out3)]
         /\ length (zipf state) = 2
         /\ shown state = [error_processing (file_name f2) FileDataError]
         /\ replacements_summary state
            = dict_set (file_name f3) count3 [(file_name f1, count1)]).
Proof.
  split.
  - intros before file after e Hfail.
    destruct (process_files_spec L find_word replace_word case_sensitive temp_dir
                (before ++ file :: after) initial_state) as [Hz _].
    destruct (process_files_spec L find_word replace_word case_sensitive temp_dir
                (before ++ after) initial_state) as [Hz' _].
    rewrite Hz, Hz', !flat_map_app. cbn [flat_map].
    unfold members at 2. rewrite Hfail. reflexivity.
  - intros f1 f2 f3 out1 count1 out3 count3 H1 Hext Hopen H3 state.
    assert (H2 : transform L find_word replace_word case_sensitive temp_dir f2
                 = Raise FileDataError).
    { unfold transform. rewrite Hext. cbn [text_eqb txt map list_ascii_of_string].
      cbn. unfold replace_in_pdf_fitz. rewrite Hopen. reflexivity. }
    destruct (process_files_spec L find_word replace_word case_sensitive temp_dir
                [f1; f2; f3] initial_state) as [Hz [Hs Hm]].
    fold state in Hz, Hs, Hm.
    assert (Hzip : zipf state
         = [(zip_arcname L (file_name f1), out1); (zip_arcname L (file_name f3), out3)]).
    { rewrite Hz. cbn [flat_map initial_state zipf app]. unfold members.
      rewrite H1, H2, H3. reflexivity. }
    split; [exact Hzip|]. split; [now rewrite Hzip|]. split.
    + rewrite Hm. cbn [flat_map initial_state shown app]. unfold messages.
      rewrite H1, H2, H3. reflexivity.
    + rewrite Hs. cbn [fold_left initial_state replacements_summary]. unfold summarise.
      rewrite H1, H2, H3. reflexivity.
Qed.

Lemma failed_file_not_archived_witness :
  let state := process_files demo_lib (txt "hello") (txt "hi") false (txt "/tmp/run")
                 [fruit_file; broken_file; hello_file] initial_state in
  zipf state
  = [(txt "fruit.csv", render_csv fruit_frame);
     (txt "hello.xml", txt "<a><b>hi world</b><c>hi</c></a>")]
  /\ length (zipf state) = 2
  /\ shown state = [error_processing (txt "broken.pdf") FileDataError]
  /\ replacements_summary state
     = dict_set (txt "hello.xml") 2 [(txt "fruit.csv", 0)].
Proof.
  apply (proj2 (failed_file_not_archived demo_lib (txt "hello") (txt "hi") false
                  (txt "/tmp/run"))
           fruit_file broken_file hello_file
           (render_csv fruit_frame) 0 (txt "<a><b>hi world</b><c>hi</c></a>") 2);
    reflexivity.
Defined.

(** C7, as the specification has it, fails: the output file is opened
    under the name of the upload, joined to the temporary directory.  For
    a name with a directory part, [sub/trial.xpt], there is no directory to
    open it in: [open] raises, the page shows the error for the file,
    nothing is written, nothing is archived and nothing is counted. *)
Lemma xpt_in_folder_not_archived :
  extension demo_lib (file_name folder_transport_file) = txt "xpt"
  /\ process_file demo_lib (txt "hello") (txt "hi") false (txt "/tmp/run")
       initial_state folder_transport_file
     = mkRun [] [] [] [error_processing (txt "sub/trial.xpt") FileNotFoundError].
Proof. split; reflexivity. Qed.

(** C7 (amended): for a file with the extension xpt the turn of the loop
    is decided by its output path, the temporary directory joined with its
    name.  When the path names a file that can be opened for writing, the
    file is saved there as it is, byte for byte, at whatever read position
    it was; the archive gets these bytes under the name it makes of the
    name of the file; the count in the summary is 0 and no error or warning
    is shown.  When the path cannot be opened, the error is shown for the
    file and nothing is written, archived or counted. *)
Theorem xpt_passes_through (L : Lib) (find_word replace_word : text)
  (case_sensitive : bool) (temp_dir : text) (state : RunState) (file : UploadedFile) :
  extension L (file_name file) = txt "xpt" ->
  process_file L find_word replace_word case_sensitive temp_dir state file
  = match locate L (os_path_join temp_dir (file_name file)) with
    | Some key =>
        mkRun (dict_set key (file_data file) (temp_files state))
              (zipf state ++ [(zip_arcname L (file_name file), file_data file)])
              (dict_set (file_name file) 0 (replacements_summary state))
              (shown state)
    | None =>
        mkRun (temp_files state) (zipf state) (replacements_summary state)
              (shown state
                 ++ [error_processing (file_name file)
                       (open_error L (txt "xpt")
                          (os_path_join temp_dir (file_name file)))])
    end.
Proof.
  intros Hext. unfold process_file, dispatch. rewrite Hext.
  change (text_eqb (txt "xpt") (txt "pdf")) with false.
  change (text_eqb (txt "xpt") (txt "csv")) with false.
  change (text_eqb (txt "xpt") (txt "xml")) with false.
  change (text_eqb (txt "xpt") (txt "xpt")) with true.
  cbv iota zeta. unfold save_then, save_modified_file.
  change (text_eqb (txt "xpt") (txt "pdf")) with false.
  change (text_eqb (txt "xpt") (txt "csv")) with false.
  change (text_eqb (txt "xpt") (txt "xml")) with false.
  change (text_eqb (txt "xpt") (txt "xpt")) with true.
  cbv iota. unfold write_out, zipf_write.
  change (file_read (file_seek file 0)) with (file_data file).
  destruct (locate L (os_path_join temp_dir (file_name file))) as [key|].
  - cbn [bind]. rewrite dict_get_set_same. reflexivity.
  - reflexivity.
Qed.

Lemma xpt_passes_through_witness :
  process_file demo_lib (txt "hello") (txt "hi") false (txt "/tmp/run")
    initial_state transport_file
  = mkRun [(txt "/tmp/run/trial.XPT", file_data transport_file)]
          [(txt "trial.XPT", file_data transport_file)]
          [(txt "trial.XPT", 0)]
          [].
Proof.
  apply (xpt_passes_through demo_lib (txt "hello") (txt "hi") false (txt "/tmp/run")
           initial_state transport_file).
  reflexivity.
Defined.

(** ** The page of a run *)

(** Without a word to find nothing is processed. *)
Lemma start_replacement_no_word (L : Lib) (replace_word : text)
  (case_sensitive : bool) (temp_dir : text) (file : UploadedFile)
  (more : list UploadedFile) :
  start_replacement L [] replace_word case_sensitive temp_dir (file :: more)
  = [warning_no_word].
Proof. reflexivity. Qed.

(** What the page of a run says of a file is what the report says of it:
    the button, the heading and the closing message bear no name. *)
Lemma start_replacement_mentions (L : Lib) (find_word replace_word : text)
  (case_sensitive : bool) (temp_dir : text) (uploaded_files : list UploadedFile)
  (n : text) :
  uploaded_files <> [] ->
  find_word <> [] ->
  filter (mentions n)
    (start_replacement L find_word replace_word case_sensitive temp_dir uploaded_files)
  = filter (mentions n)
      (report (process_files L find_word replace_word case_sensitive temp_dir
                 uploaded_files initial_state)).
Proof.
  intros Hfiles Hword. unfold start_replacement, report.
  destruct uploaded_files as [|file more]; [congruence|].
  destruct find_word as [|c w]; [congruence|].
  cbv zeta. rewrite !filter_app. cbn [filter mentions].
  rewrite filter_app. cbn [filter mentions]. now rewrite app_nil_r.
Qed.

(** * Further properties of the code *)

(** ** [replace_text] and [count_occurrences] *)

Lemma replace_text_plain_spec_witness :
  exists out n,
    replace_text demo_lib (txt "banana bandana") (txt "ana") (txt "o") true = Ok (out, n)
    /\ occurrence_count ascii_ic true (txt "ana") (txt "banana bandana") n
    /\ substituted ascii_ic true (txt "ana") (txt "o") (txt "banana bandana") out n.
Proof.
  apply (replace_text_plain_spec demo_lib (txt "banana bandana") (txt "ana") (txt "o") true).
  - discriminate.
  - reflexivity.
Defined.

Lemma template_escape_raises (rest : text) (e : exn) :
  Re.template_escape rest = Raise e -> e = TemplateError.
Proof.
  unfold Re.template_escape.
  repeat match goal with
         | |- context [match ?x with _ => _ end] => destruct x
         end; congruence.
Qed.

Lemma parse_template_raises (src : text) :
  forall skip e, Re.parse_template_from skip src = Raise e -> e = TemplateError.
Proof.
  induction src as [|c src IH]; intros skip e; [discriminate|].
  cbn [Re.parse_template_from]. destruct skip as [|k]; [|apply IH].
  destruct (N.eqb c Re.BACKSLASH).
  - destruct (Re.template_escape src) as [[items k]|x] eqn:Et.
    + cbn [bind]. destruct (Re.parse_template_from k src) as [more|x] eqn:Ep.
      * discriminate.
      * cbn [bind]. intros [= <-]. exact (IH _ _ Ep).
    + cbn [bind]. intros [= <-]. exact (template_escape_raises _ _ Et).
  - destruct (Re.parse_template_from 0 src) as [more|x] eqn:Ep.
    + discriminate.
    + cbn [bind]. intros [= <-]. exact (IH _ _ Ep).
Qed.

Lemma filter_of_raises (repl : text) (e : exn) :
  Re.filter_of repl = Raise e ->
  e = TemplateError /\ existsb (N.eqb Re.BACKSLASH) repl = true.
Proof.
  unfold Re.filter_of. destruct (existsb (N.eqb Re.BACKSLASH) repl); [|discriminate].
  unfold Re.parse_template.
  destruct (Re.parse_template_from 0 repl) as [t|x] eqn:Ep; [discriminate|].
  cbn [bind]. intros [= <-]. split; [exact (parse_template_raises _ _ _ Ep) | reflexivity].
Qed.

(** X2: whether the matcher raises is decided by the replacement alone.
    When it raises on some text it is with the error of a replacement
    template, the replacement has a backslash, and the matcher raises on
    every text, for every find-term and either setting of the case
    sensitivity, also where nothing would be replaced. *)
Theorem replace_text_raises_by_replacement (L : Lib) (s find replace : text)
  (case_sensitive : bool) (e : exn) :
  replace_text L s find replace case_sensitive = Raise e ->
  e = TemplateError
  /\ existsb (N.eqb Re.BACKSLASH) replace = true
  /\ forall s' find' case_sensitive',
       replace_text L s' find' replace case_sensitive' = Raise TemplateError.
Proof.
  rewrite replace_text_subn. unfold Re.subn.
  destruct (Re.filter_of replace) as [f|x] eqn:Ef.
  { cbn [bind].
    match goal with
    | |- context [Re.matches ?a ?b ?c ?d] => destruct (Re.matches a b c d)
    end.
    discriminate. }
  cbn [bind]. intros [= <-]. destruct (filter_of_raises _ _ Ef) as [-> Hb].
  split; [reflexivity|]. split; [exact Hb|].
  intros s' find' cs'. rewrite replace_text_subn. unfold Re.subn. rewrite Ef.
  reflexivity.
Qed.

Lemma replace_text_raises_by_replacement_witness :
  TemplateError = TemplateError
  /\ existsb (N.eqb Re.BACKSLASH) (txt "C:\Users") = true
  /\ forall s' find' case_sensitive',
       replace_text demo_lib s' find' (txt "C:\Users") case_sensitive'
       = Raise TemplateError.
Proof.
  apply (replace_text_raises_by_replacement demo_lib (txt "home") (txt "home")
           (txt "C:\Users") true TemplateError).
  reflexivity.
Defined.

(** X3: for a find-term that is not empty [count_occurrences] returns,
    never raises, and its count is the number of non-overlapping
    occurrences under the case sensitivity, which is also the count of
    [replace_text] whenever that returns, whatever the replacement. *)
Theorem count_occurrences_counts (L : Lib) (s find : text) (case_sensitive : bool) :
  find <> [] ->
  exists n,
    count_occurrences L s find case_sensitive = Ok n
    /\ occurrence_count (ic L) case_sensitive find s n
    /\ forall replace out m,
         replace_text L s find replace case_sensitive = Ok (out, m) -> m = n.
Proof.
  intros Hne.
  pose proof (replace_text_plain L s find [] case_sensitive Hne eq_refl) as Hr.
  destruct (Re.one_pass (ic L) (negb case_sensitive) find (fun _ => []) 0 s)
    as [out n] eqn:Es.
  assert (Hcount : occurrence_count (ic L) case_sensitive find s n).
  { replace n with (snd (Re.one_pass (ic L) (negb case_sensitive) find (fun _ => []) 0 s))
      by now rewrite Es.
    apply scan_occurrence_count. exact Hne. }
  exists n. pose proof (count_occurrences_replace_text L _ _ _ _ _ _ Hne Hr) as Hc.
  split; [exact Hc|]. split; [exact Hcount|].
  intros replace out' m Hm.
  apply (count_occurrences_replace_text L _ _ _ _ _ _ Hne) in Hm. congruence.
Qed.

Lemma count_occurrences_counts_witness :
  exists n,
    count_occurrences demo_lib (txt "Apple pie, apple tart") (txt "apple") false = Ok n
    /\ occurrence_count ascii_ic false (txt "apple") (txt "Apple pie, apple tart") n
    /\ forall replace out m,
         replace_text demo_lib (txt "Apple pie, apple tart") (txt "apple") replace false
         = Ok (out, m) -> m = n.
Proof.
  apply (count_occurrences_counts demo_lib (txt "Apple pie, apple tart") (txt "apple") false).
  discriminate.
Defined.

(** X4: when the matcher returns for a find-term that is not empty, its
    count is 0 exactly when the find-term occurs at no position of the
    text, and then the text comes back as it was given. *)
Theorem nothing_found_nothing_changed (L : Lib) (s find replace out : text)
  (case_sensitive : bool) (n : nat) :
  find <> [] ->
  replace_text L s find replace case_sensitive = Ok (out, n) ->
  (n = 0 <-> forall p, occurs_at (ic L) case_sensitive find s p = false)
  /\ (n = 0 -> out = s).
Proof.
  intros Hne Hr. destruct (replace_text_scan _ _ _ _ _ _ _ Hne Hr) as [f [_ Hscan]].
  assert (Hn : n = snd (Re.one_pass (ic L) (negb case_sensitive) find f 0 s))
    by now rewrite Hscan.
  split; [split|].
  - intros H0 p. destruct (occurs_at (ic L) case_sensitive find s p) eqn:Ho; [|reflexivity].
    pose proof (scan_count_most (ic L) case_sensitive find Hne f s 0 0 [p] (le_n 0)) as Hm.
    rewrite <- Hn, H0 in Hm. cbn [disjoint_occurrences] in Hm. rewrite Ho in Hm.
    specialize (Hm eq_refl). simpl in Hm. lia.
  - intros Hnone.
    destruct (scan_count_some (ic L) case_sensitive find Hne f s 0) as [ps [Hd Hlen]].
    rewrite <- Hn in Hlen. destruct ps as [|p ps]; [simpl in Hlen; congruence|].
    cbn [disjoint_occurrences] in Hd. rewrite (Hnone p) in Hd.
    rewrite andb_false_r in Hd. discriminate.
  - intros ->. exact (replace_text_count_zero L s find replace out case_sensitive Hne Hr).
Qed.

Lemma nothing_found_nothing_changed_witness :
  (0 = 0 <-> forall p, occurs_at ascii_ic false (txt "pear") (txt "apple pie") p = false)
  /\ (0 = 0 -> txt "apple pie" = txt "apple pie").
Proof.
  apply (nothing_found_nothing_changed demo_lib (txt "apple pie") (txt "pear")
           (txt "plum") (txt "apple pie") false 0).
  - discriminate.
  - reflexivity.
Defined.

(** The loop on the empty pattern, which matches everywhere: an empty
    match at the start, then, an empty match not being taken where the last
    match ended, one after every character. *)
Lemma search_loop_empty_pattern (ic : N -> N -> bool) (flag : bool) (u : text) :
  forall fuel gap,
    2 * length u + 2 <= fuel ->
    Re.search_loop ic flag [] fuel false gap u
    = ((gap, []) :: map (fun c => ([c], [])) u, []).
Proof.
  induction u as [|c rest IH]; intros fuel gap Hfuel.
  - destruct fuel as [|[|fuel]]; cbn [length] in Hfuel; try lia. reflexivity.
  - destruct fuel as [|[|fuel]]; cbn [length] in Hfuel; try lia.
    cbn [Re.search_loop Re.match_here length Nat.eqb andb negb skipn firstn].
    rewrite (IH fuel ([] ++ [c])) by lia. reflexivity.
Qed.

(** X5: with the empty find-term, which the button's branch refuses but
    the function accepts, the matcher puts the replacement before every
    character and after the last, and counts one more than the text has
    characters. *)
Theorem replace_text_empty_find (L : Lib) (s replace : text) (case_sensitive : bool) :
  existsb (N.eqb Re.BACKSLASH) replace = false ->
  replace_text L s [] replace case_sensitive
  = Ok (interleave replace s, S (length s)).
Proof.
  intros Hplain. rewrite replace_text_subn. unfold Re.subn.
  rewrite (filter_of_plain _ Hplain). cbn [bind Re.lits Re.ignorecase].
  unfold Re.matches.
  rewrite (search_loop_empty_pattern (ic L) (negb case_sensitive) s
             (2 * length s + 2) [] (le_n _)).
  unfold Re.joined, interleave. cbn [flat_map length app].
  rewrite length_map, app_nil_r. do 3 f_equal.
  induction s as [|c rest IH]; [reflexivity|].
  cbn [map flat_map app]. now rewrite IH.
Qed.

Lemma replace_text_empty_find_witness :
  replace_text demo_lib (txt "abc") [] (txt "-") true
  = Ok (txt "-a-b-c-", 4).
Proof.
  apply (replace_text_empty_find demo_lib (txt "abc") (txt "-") true). reflexivity.
Defined.

Lemma match_here_ignoring_case (ic : N -> N -> bool) (find u : text) :
  (forall c, ic c c = true) ->
  Re.match_here ic false find u = true -> Re.match_here ic true find u = true.
Proof.
  intros Hrefl. revert u. induction find as [|p f IH]; intros [|c u]; cbn; try easy.
  intros H. apply andb_true_iff in H as [Hc Hu]. apply N.eqb_eq in Hc. subst c.
  now rewrite Hrefl, (IH _ Hu).
Qed.

Lemma disjoint_ignoring_case (ic : N -> N -> bool) (find s : text) (ps : list nat) :
  (forall c, ic c c = true) ->
  forall lo,
    disjoint_occurrences ic true find s lo ps = true ->
    disjoint_occurrences ic false find s lo ps = true.
Proof.
  intros Hrefl. induction ps as [|p ps IH]; intros lo; [reflexivity|].
  cbn [disjoint_occurrences]. intros H.
  apply andb_true_iff in H as [H Hrest]. apply andb_true_iff in H as [Hlo Hocc].
  rewrite Hlo, (IH _ Hrest). unfold occurs_at in *. cbn [negb] in *.
  now rewrite (match_here_ignoring_case ic find _ Hrefl Hocc).
Qed.

(** X6: when the case table identifies every character with itself, the
    matcher finds no fewer occurrences without case sensitivity than with
    it. *)
Theorem ignoring_case_finds_no_fewer (L : Lib) (s find replace out out' : text)
  (n n' : nat) :
  (forall c, ic L c c = true) ->
  find <> [] ->
  replace_text L s find replace true = Ok (out, n) ->
  replace_text L s find replace false = Ok (out', n') ->
  n <= n'.
Proof.
  intros Hrefl Hne Hcs Hci.
  destruct (replace_text_scan _ _ _ _ _ _ _ Hne Hcs) as [f [_ Hs]].
  destruct (replace_text_scan _ _ _ _ _ _ _ Hne Hci) as [f' [_ Hs']].
  destruct (scan_count_some (ic L) true find Hne f s 0) as [ps [Hd Hlen]].
  rewrite Hs in Hlen. cbn [snd] in Hlen. rewrite <- Hlen.
  apply (disjoint_ignoring_case (ic L) find s ps Hrefl) in Hd.
  pose proof (scan_count_most (ic L) false find Hne f' s 0 0 ps (le_n 0) Hd) as Hm.
  rewrite Hs' in Hm. exact Hm.
Qed.

Lemma ascii_ic_refl (c : N) : ascii_ic c c = true.
Proof. unfold ascii_ic. apply N.eqb_refl. Qed.

Lemma ignoring_case_finds_no_fewer_witness : 1 <= 2.
Proof.
  apply (ignoring_case_finds_no_fewer demo_lib (txt "Apple pie, apple tart") (txt "apple")
           (txt "pear") (txt "Apple pie, pear tart") (txt "pear pie, pear tart") 1 2).
  - exact ascii_ic_refl.
  - discriminate.
  - reflexivity.
  - reflexivity.
Defined.

(** X7: for a find-term that is not empty and a replacement without a
    backslash, every replaced occurrence changes the length of the text by
    the difference of the lengths of the replacement and the find-term. *)
Theorem replace_text_length (L : Lib) (s find replace out : text)
  (case_sensitive : bool) (n : nat) :
  find <> [] ->
  existsb (N.eqb Re.BACKSLASH) replace = false ->
  replace_text L s find replace case_sensitive = Ok (out, n) ->
  length out + n * length find = length s + n * length replace.
Proof.
  intros Hne Hplain Hr. rewrite (replace_text_plain L _ _ _ _ Hne Hplain) in Hr.
  injection Hr as Hr.
  pose proof (scan_substituted (ic L) case_sensitive find Hne replace s) as H.
  rewrite Hr in H. exact (substituted_length _ _ _ _ _ _ _ H).
Qed.

Lemma replace_text_length_witness :
  length (txt "bona bando") + 2 * length (txt "ana")
  = length (txt "banana bandana") + 2 * length (txt "o").
Proof.
  apply (replace_text_length demo_lib (txt "banana bandana") (txt "ana") (txt "o")
           (txt "bona bando") true 2).
  - discriminate.
  - reflexivity.
  - reflexivity.
Defined.

(** ** [replace_in_xml] *)

Lemma list_sum_app_nat (a b : list nat) : list_sum (a ++ b) = list_sum a + list_sum b.
Proof. induction a as [|x a IH]; simpl; [reflexivity | rewrite IH; lia]. Qed.

Lemma tree_depth_unfold tag attrib text_ tail children :
  tree_depth (Elem tag attrib text_ tail children)
  = S (list_max (map tree_depth children)).
Proof. reflexivity. Qed.

Lemma xml_case_sensitive_from (L : Lib) (find replace : text) (e : Element) :
  find <> [] ->
  existsb (N.eqb Re.BACKSLASH) replace = false ->
  forall room count,
    tree_depth e + matcher_frames L <= room ->
    replace_text_elem L find replace true room e count
    = Ok (map_texts (matcher_text L find replace true) e,
          count + list_sum (map (matcher_count L find replace true) (tree_texts e))).
Proof.
  intros Hne Hplain.
  induction e as [tag attrib text_ tail children IH] using Element_induction.
  intros room count Hroom. rewrite tree_depth_unfold in Hroom.
  destruct room as [|room']; [lia|]. rewrite visit_unfold.
  assert (Hframes : matcher_frames L <= room') by lia.
  assert (Hstep : text_step L find replace true room' text_ count
                  = Ok (match text_ with
                        | Some (c :: t) => Some (matcher_text L find replace true (c :: t))
                        | _ => text_
                        end,
                        count + list_sum (map (matcher_count L find replace true)
                                            match text_ with
                                            | Some (c :: t) => [c :: t]
                                            | _ => []
                                            end))).
  { destruct text_ as [[|c t]|].
    - cbn. now rewrite Nat.add_0_r.
    - rewrite (text_step_case_sensitive L find replace room' (c :: t) count
                 Hne Hplain Hframes) by discriminate.
      unfold list_sum. cbn [map fold_right]. unfold matcher_text, matcher_count.
      rewrite (replace_text_plain L _ _ _ _ Hne Hplain).
      destruct (Re.one_pass (ic L) (negb true) find (fun _ => replace) 0 (c :: t)) as [out n].
      cbn. now rewrite Nat.add_0_r.
    - cbn. now rewrite Nat.add_0_r. }
  rewrite Hstep. cbn [bind].
  assert (Hch : forall c,
    list_max (map tree_depth children) + matcher_frames L <= room' ->
    for_each_child (replace_text_elem L find replace true room') children c
    = Ok (map (map_texts (matcher_text L find replace true)) children,
          c + list_sum (map (matcher_count L find replace true)
                          (flat_map tree_texts children)))).
  { clear Hroom. induction IH as [|child more Hchild _ IHmore]; intros c Hdeep.
    - cbn. now rewrite Nat.add_0_r.
    - change (list_max (map tree_depth (child :: more)))
        with (Nat.max (tree_depth child) (list_max (map tree_depth more))) in Hdeep.
      cbn [for_each_child]. rewrite Hchild by lia. cbn [bind].
      rewrite IHmore by lia. cbn [bind].
      cbn [map flat_map]. rewrite map_app, list_sum_app_nat.
      now rewrite Nat.add_assoc. }
  rewrite Hch by lia. cbn [bind map_texts tree_texts].
  rewrite map_app, list_sum_app_nat. now rewrite Nat.add_assoc.
Qed.

(** X8: with case sensitivity, for a find-term that is not empty, a
    replacement without a backslash and a tree that nests no deeper than
    the stack has room for, the frames of the matcher counted in, the
    handler returns the tree with every text that is not empty replaced by
    what the matcher makes of it, everything else as it was, and its count
    is the sum of the matcher's counts on those texts. *)
Theorem xml_case_sensitive_tree (L : Lib) (root : Element) (find replace : text) :
  find <> [] ->
  existsb (N.eqb Re.BACKSLASH) replace = false ->
  tree_depth root + matcher_frames L <= stack_room L ->
  replace_in_xml_tree L root find replace true
  = Ok (map_texts (matcher_text L find replace true) root,
        list_sum (map (matcher_count L find replace true) (tree_texts root))).
Proof.
  intros Hne Hplain Hroom. unfold replace_in_xml_tree.
  now rewrite (xml_case_sensitive_from L find replace root Hne Hplain (stack_room L) 0 Hroom).
Qed.

Lemma xml_case_sensitive_tree_witness :
  replace_in_xml_tree demo_lib hello_tree (txt "hello") (txt "hi") true
  = Ok (map_texts (matcher_text demo_lib (txt "hello") (txt "hi") true) hello_tree,
        list_sum (map (matcher_count demo_lib (txt "hello") (txt "hi") true)
                    (tree_texts hello_tree))).
Proof.
  apply (xml_case_sensitive_tree demo_lib hello_tree (txt "hello") (txt "hi")).
  - discriminate.
  - reflexivity.
  - vm_compute. lia.
Defined.

Lemma xml_without_find_from (L : Lib) (find replace : text) (case_sensitive : bool)
  (e : Element) :
  existsb (str_contains find) (tree_texts e) = false ->
  forall room count,
    replace_text_elem L find replace case_sensitive room e count
    = if tree_depth e <=? room then Ok (e, count) else Raise RecursionError.
Proof.
  induction e as [tag attrib text_ tail children IH] using Element_induction.
  cbn [tree_texts]. rewrite existsb_app. intros H room count.
  apply orb_false_iff in H as [Hown Hch]. rewrite tree_depth_unfold.
  destruct room as [|room']; [reflexivity|]. rewrite visit_unfold.
  assert (Hstep : text_step L find replace case_sensitive room' text_ count
                  = Ok (text_, count)).
  { destruct text_ as [[|c t]|]; try reflexivity.
    cbn [existsb] in Hown. rewrite orb_false_r in Hown.
    unfold text_step. now rewrite Hown, andb_false_r. }
  rewrite Hstep. cbn [bind].
  assert (Hloop : forall c,
    for_each_child (replace_text_elem L find replace case_sensitive room') children c
    = if list_max (map tree_depth children) <=? room'
      then Ok (children, c) else Raise RecursionError).
  { clear Hstep Hown. induction IH as [|child more Hchild _ IHmore]; intros c;
      [reflexivity|].
    cbn [flat_map] in Hch. rewrite existsb_app in Hch.
    apply orb_false_iff in Hch as [Hc Hm].
    change (list_max (map tree_depth (child :: more)))
      with (Nat.max (tree_depth child) (list_max (map tree_depth more))).
    cbn [for_each_child]. rewrite (Hchild Hc).
    destruct (tree_depth child <=? room') eqn:Ed.
    - cbn [bind]. rewrite (IHmore Hm).
      destruct (list_max (map tree_depth more) <=? room') eqn:Em.
      + apply Nat.leb_le in Ed, Em.
        replace (Nat.max (tree_depth child) (list_max (map tree_depth more)) <=? room')
          with true by (symmetry; apply Nat.leb_le; lia).
        reflexivity.
      + apply Nat.leb_gt in Em.
        replace (Nat.max (tree_depth child) (list_max (map tree_depth more)) <=? room')
          with false by (symmetry; apply Nat.leb_gt; lia).
        reflexivity.
    - apply Nat.leb_gt in Ed.
      replace (Nat.max (tree_depth child) (list_max (map tree_depth more)) <=? room')
        with false by (symmetry; apply Nat.leb_gt; lia).
      reflexivity. }
  rewrite Hloop.
  change (S (list_max (map tree_depth children)) <=? S room')
    with (list_max (map tree_depth children) <=? room').
  destruct (list_max (map tree_depth children) <=? room'); reflexivity.
Qed.

(** X9: on a tree none of whose texts contains the find-term as it is
    written the matcher is not called, under either setting of the case
    sensitivity and whatever the replacement, so a replacement that no
    template is does not make the handler raise.  A tree that nests no
    deeper than the stack has room for comes back as it is with count 0;
    on a deeper one the handler raises the error of the recursion limit. *)
Theorem xml_without_find_untouched (L : Lib) (root : Element) (find replace : text)
  (case_sensitive : bool) :
  existsb (str_contains find) (tree_texts root) = false ->
  replace_in_xml_tree L root find replace case_sensitive
  = if tree_depth root <=? stack_room L then Ok (root, 0) else Raise RecursionError.
Proof.
  intros H.
  exact (xml_without_find_from L find replace case_sensitive root H (stack_room L) 0).
Qed.

Lemma xml_without_find_untouched_witness :
  replace_in_xml_tree demo_lib hello_tree (txt "Hello") (txt "C:\Users") false
  = Ok (hello_tree, 0).
Proof.
  apply (xml_without_find_untouched demo_lib hello_tree (txt "Hello") (txt "C:\Users")
           false).
  reflexivity.
Defined.

(** ** [replace_in_csv] *)

Lemma split_snd_map {A B : Type} (l : list (A * B)) : snd (List.split l) = map snd l.
Proof.
  induction l as [|[a b] l IH]; [reflexivity|].
  simpl. destruct (List.split l). simpl in *. now rewrite IH.
Qed.

Lemma csv_column_step_count (L : Lib) (find replace : text) (case_sensitive : bool)
  (col col' : Column) (count count' : nat) :
  csv_column_step L find replace case_sensitive col count = Ok (col', count') ->
  count' = count + column_count L find replace case_sensitive col.
Proof.
  destruct col as [name values | name dtype raw]; cbn [csv_column_step column_count].
  - destruct (mapM _ (astype_str values)) as [pairs|x] eqn:Em; [|discriminate].
    cbn [bind]. destruct pairs as [|pr pairs]; [discriminate|].
    cbn [unzip_pairs bind].
    destruct (List.split (pr :: pairs)) as [new_values col_count] eqn:Es.
    intros [= _ <-]. f_equal.
    replace col_count with (map snd (pr :: pairs))
      by (rewrite <- split_snd_map, Es; reflexivity).
    apply mapM_Forall2 in Em. clear Es. revert Em. generalize (pr :: pairs). clear.
    induction values as [|cell values IH]; intros l H; inversion H; subst;
      [reflexivity|].
    cbn [map]. unfold list_sum in *. cbn [fold_right]. rewrite (IH _ H4). f_equal.
    unfold matcher_count. cbn [py_str] in H2. rewrite H2. now destruct y.
  - intros [= _ <-]. lia.
Qed.

Lemma Forall2_length_eq {A B : Type} (R : A -> B -> Prop) (a : list A) (b : list B) :
  Forall2 R a b -> length a = length b.
Proof. induction 1; simpl; congruence. Qed.

Lemma column_coerced_shape (L : Lib) (find replace : text) (case_sensitive : bool)
  (col col' : Column) :
  column_coerced L find replace case_sensitive col col' ->
  column_name col' = column_name col
  /\ column_length col' = column_length col
  /\ (is_numeric col = true -> col' = col).
Proof.
  destruct col as [name values | name dtype raw]; cbn [column_coerced].
  - intros [values' [-> Hcells]]. cbn. repeat split; [|discriminate].
    symmetry. exact (Forall2_length_eq _ _ _ Hcells).
  - intros ->. repeat split.
Qed.

Lemma csv_columns_loop_spec (L : Lib) (find replace : text) (case_sensitive : bool)
  (df : DataFrame) :
  forall df' count count',
    csv_columns_loop L find replace case_sensitive df count = Ok (df', count') ->
    count' = count + frame_count L find replace case_sensitive df
    /\ Forall2 (fun col col' =>
                  column_name col' = column_name col
                  /\ column_length col' = column_length col
                  /\ (is_numeric col = true -> col' = col)) df df'.
Proof.
  induction df as [|col more IH]; intros df' count count'; cbn [csv_columns_loop].
  - intros [= <- <-]. split; [unfold frame_count; simpl; lia | constructor].
  - destruct (csv_column_step L find replace case_sensitive col count)
      as [[col' c1]|x] eqn:Ecol; [|discriminate].
    cbn [bind].
    destruct (csv_columns_loop L find replace case_sensitive more c1)
      as [[more' c2]|x] eqn:Emore; [|discriminate].
    cbn [bind]. intros [= <- <-].
    destruct (IH _ _ _ Emore) as [Hc2 Hmore].
    pose proof (csv_column_step_count _ _ _ _ _ _ _ _ Ecol) as Hc1.
    pose proof (csv_column_step_coerced _ _ _ _ _ _ _ _ Ecol) as Hco.
    split.
    + rewrite Hc2, Hc1. unfold frame_count, list_sum. cbn [map fold_right]. lia.
    + constructor; [exact (column_coerced_shape _ _ _ _ _ _ Hco) | exact Hmore].
Qed.

(** X10: when the handler returns, the frame has the columns of the input
    with their names, in their order and with as many cells each, and the
    columns that are not of dtype [object] are the ones of the input. *)
Theorem csv_grid_preserved (L : Lib) (df df' : DataFrame) (find replace : text)
  (case_sensitive : bool) (count : nat) :
  replace_in_csv_frame L df find replace case_sensitive = Ok (df', count) ->
  map column_name df' = map column_name df
  /\ map column_length df' = map column_length df
  /\ Forall2 (fun col col' => is_numeric col = true -> col' = col) df df'.
Proof.
  unfold replace_in_csv_frame. intros H.
  apply csv_columns_loop_spec in H as [_ H].
  induction H as [|col col' more more' [Hn [Hl Hnum]] _ IH]; [repeat split; constructor|].
  destruct IH as [IHn [IHl IHnum]]. cbn [map]. rewrite Hn, Hl, IHn, IHl.
  repeat split. constructor; assumption.
Qed.

Lemma csv_grid_preserved_witness :
  exists df',
    replace_in_csv_frame demo_lib fruit_frame (txt "apple") (txt "REPL") false
    = Ok (df', 2)
    /\ map column_name df' = map column_name fruit_frame
    /\ map column_length df' = map column_length fruit_frame
    /\ Forall2 (fun col col' => is_numeric col = true -> col' = col) fruit_frame df'.
Proof.
  eexists. split; [reflexivity|].
  apply (csv_grid_preserved demo_lib fruit_frame _ (txt "apple") (txt "REPL") false 2).
  reflexivity.
Defined.

(** X11: when the handler returns, its count is the sum, over the cells
    of the columns of dtype [object], of the matcher's counts on the
    strings of the cells; the other columns count nothing. *)
Theorem csv_count_is_sum (L : Lib) (df df' : DataFrame) (find replace : text)
  (case_sensitive : bool) (count : nat) :
  replace_in_csv_frame L df find replace case_sensitive = Ok (df', count) ->
  count = frame_count L find replace case_sensitive df.
Proof.
  unfold replace_in_csv_frame. intros H.
  apply csv_columns_loop_spec in H as [H _]. exact H.
Qed.

Lemma csv_count_is_sum_witness :
  2 = frame_count demo_lib (txt "apple") (txt "REPL") false fruit_frame.
Proof.
  apply (csv_count_is_sum demo_lib fruit_frame
           [ObjectColumn (txt "fruit")
              [OStr (txt "REPL"); OStr (txt "banana"); OStr (txt "REPL")];
            NumericColumn (txt "stock") int64 [3; 0; 12]%N]
           (txt "apple") (txt "REPL") false 2).
  reflexivity.
Defined.

Lemma csv_numeric_from (L : Lib) (find replace : text) (case_sensitive : bool)
  (df : DataFrame) :
  forallb is_numeric df = true ->
  forall count,
    csv_columns_loop L find replace case_sensitive df count = Ok (df, count).
Proof.
  induction df as [|col more IH]; intros H count; [reflexivity|].
  cbn [forallb] in H. apply andb_true_iff in H as [Hcol Hmore].
  destruct col as [name values | name dtype raw]; [discriminate|].
  cbn [csv_columns_loop csv_column_step bind]. rewrite (IH Hmore). reflexivity.
Qed.

(** X12: a frame without a column of dtype [object] comes back as it is
    with count 0, whatever the find-term and the replacement: the matcher
    is not called, and a replacement that no template is does not make the
    handler raise. *)
Theorem csv_numeric_frame_untouched (L : Lib) (df : DataFrame) (find replace : text)
  (case_sensitive : bool) :
  forallb is_numeric df = true ->
  replace_in_csv_frame L df find replace case_sensitive = Ok (df, 0).
Proof.
  intros H. exact (csv_numeric_from L find replace case_sensitive df H 0).
Qed.

Lemma csv_numeric_frame_untouched_witness :
  replace_in_csv_frame demo_lib stock_frame (txt "3") (txt "C:\Users") false
  = Ok (stock_frame, 0).
Proof.
  apply (csv_numeric_frame_untouched demo_lib stock_frame (txt "3") (txt "C:\Users") false).
  reflexivity.
Defined.

(** ** [replace_in_pdf_fitz] *)

(** X13: when the handler returns, what it has written on a page is, for
    each text block in which the matcher found something and in the order
    of the blocks, the text the matcher made of the block's text, at the
    top left corner of the block's rectangle, in size 11; it writes
    nothing else. *)
Theorem pdf_text_reinserted (L : Lib) (doc doc' : PdfDoc) (find replace : text)
  (case_sensitive : bool) (total_count : nat) :
  replace_in_pdf_doc L doc find replace case_sensitive = Ok (doc', total_count) ->
  Forall2 (fun page page' =>
             inserted page'
             = inserted page
                 ++ map (reinserted L find replace case_sensitive)
                      (filter (rewritten L find replace case_sensitive) (blocks page)))
          doc doc'.
Proof. unfold replace_in_pdf_doc. apply pdf_pages_loop_inserted. Qed.

Lemma pdf_text_reinserted_witness :
  Forall2 (fun page page' =>
             inserted page'
             = inserted page
                 ++ map (reinserted demo_lib (txt "O") (txt "0") false)
                      (filter (rewritten demo_lib (txt "O") (txt "0") false)
                         (blocks page)))
    [letter_page]
    [mkPage (blocks letter_page) []
            [mkRect 72 72 300 90; mkRect 72 100 300 118]
            [(72%Q, 72%Q, txt "hell0 w0rld", 11); (72%Q, 100%Q, txt "g00d bye", 11)]].
Proof.
  apply (pdf_text_reinserted demo_lib [letter_page] _ (txt "O") (txt "0") false 4).
  reflexivity.
Defined.

Lemma text_count_zero (L : Lib) (find replace : text) (case_sensitive : bool)
  (block_list : list Block) :
  text_count L find replace case_sensitive block_list = 0 ->
  filter (rewritten L find replace case_sensitive) block_list = [].
Proof.
  unfold text_count, list_sum.
  induction block_list as [|block more IH]; [reflexivity|].
  cbn [map fold_right filter]. intros H. unfold rewritten at 1.
  destruct (Nat.eqb (block_type block) 0); cbn [andb].
  - replace (block_count L find replace case_sensitive block) with 0 by lia.
    cbn. apply IH. lia.
  - apply IH. lia.
Qed.

Lemma pdf_pages_loop_zero (L : Lib) (find replace : text) (case_sensitive : bool)
  (doc : PdfDoc) :
  forall doc' c,
    pdf_pages_loop L find replace case_sensitive doc c = Ok (doc', c) -> doc' = doc.
Proof.
  induction doc as [|page more IH]; intros doc' c.
  - cbn. now intros [= <-].
  - cbn [pdf_pages_loop]. unfold get_text_blocks.
    destruct (pdf_blocks_loop L find replace case_sensitive (blocks page) (page, c))
      as [[page1 c1]|x] eqn:Epage; [|discriminate].
    cbn [bind].
    destruct (pdf_pages_loop L find replace case_sensitive more c1)
      as [[more' c2]|x] eqn:Emore; [|discriminate].
    cbn [bind]. intros [= <- Hc].
    destruct (pdf_pages_loop_spec _ _ _ _ _ _ _ _ Emore) as [Hc2 _].
    destruct (pdf_blocks_loop_spec _ _ _ _ _ _ _ _ _ Epage) as [Hc1 [_ Hpage]].
    assert (Hzero : text_count L find replace case_sensitive (blocks page) = 0) by lia.
    assert (Hc1' : c1 = c) by lia.
    rewrite (text_count_zero _ _ _ _ _ Hzero) in Hpage. subst page1.
    rewrite Hc1', Hc in Emore. f_equal. exact (IH _ _ Emore).
Qed.

(** X14: when the handler returns the count 0, the document it returns is
    the document it opened: nothing is cleared and nothing is written. *)
Theorem pdf_nothing_found_untouched (L : Lib) (doc doc' : PdfDoc) (find replace : text)
  (case_sensitive : bool) :
  replace_in_pdf_doc L doc find replace case_sensitive = Ok (doc', 0) ->
  doc' = doc.
Proof. unfold replace_in_pdf_doc. apply pdf_pages_loop_zero. Qed.

Lemma pdf_nothing_found_untouched_witness :
  replace_in_pdf_doc demo_lib [letter_page; crowded_page] (txt "pear") (txt "plum") false
  = Ok ([letter_page; crowded_page], 0).
Proof.
  assert (H : exists doc',
             replace_in_pdf_doc demo_lib [letter_page; crowded_page]
               (txt "pear") (txt "plum") false = Ok (doc', 0))
    by (eexists; reflexivity).
  destruct H as [doc' H]. rewrite H. f_equal. f_equal.
  exact (pdf_nothing_found_untouched demo_lib [letter_page; crowded_page] doc'
           (txt "pear") (txt "plum") false H).
Defined.

(** ** The loop over the uploaded files *)

Lemma dict_get_set_other {V : Type} (k k' : text) (v : V) (d : list (text * V)) :
  k' <> k -> dict_get k' (dict_set k v d) = dict_get k' d.
Proof.
  intros Hne. induction d as [|[k0 v0] d IH]; simpl.
  - destruct (text_eqb k k') eqn:E; [|reflexivity].
    apply text_eqb_eq in E. congruence.
  - destruct (text_eqb k0 k) eqn:E; simpl.
    + apply text_eqb_eq in E. subst k0.
      destruct (text_eqb k k') eqn:E'; [|reflexivity].
      apply text_eqb_eq in E'. congruence.
    + destruct (text_eqb k0 k'); [reflexivity | exact IH].
Qed.

Lemma split_on_no_sep (sep : N) (s : text) :
  ~ In sep s -> split_on sep s = [s].
Proof.
  induction s as [|c s IH]; intros H; [reflexivity|].
  cbn [split_on]. destruct (N.eqb c sep) eqn:E.
  - apply N.eqb_eq in E. subst c. exfalso. apply H. now left.
  - rewrite IH; [reflexivity|]. intros Hin. apply H. now right.
Qed.

Lemma split_on_last_piece (sep : N) (stem ext : text) :
  ~ In sep ext ->
  exists piece pieces, split_on sep (stem ++ sep :: ext) = (piece :: pieces) ++ [ext].
Proof.
  intros Hext. induction stem as [|c stem IH].
  - cbn [app split_on]. rewrite N.eqb_refl, (split_on_no_sep sep ext Hext).
    now exists [], [].
  - destruct IH as [piece [pieces IH]]. cbn [app split_on]. rewrite IH.
    destruct (N.eqb c sep).
    + now exists [], (piece :: pieces).
    + now exists (c :: piece), pieces.
Qed.

(** X16: the type of a file is read off what follows the last dot of its
    name, lowered; a name without a dot is its own extension, so that a
    file called [pdf] goes the way of the PDF files. *)
Theorem extension_after_last_dot (L : Lib) (stem ext : text) :
  ~ In 46%N ext ->
  extension L (stem ++ 46%N :: ext) = str_lower L ext
  /\ extension L ext = str_lower L ext.
Proof.
  intros Hext. unfold extension. split.
  - destruct (split_on_last_piece 46 stem ext Hext) as [piece [pieces ->]].
    now rewrite last_last.
  - now rewrite (split_on_no_sep 46 ext Hext).
Qed.

Lemma extension_after_last_dot_witness :
  extension demo_lib (txt "report.final" ++ 46%N :: txt "PDF") = txt "pdf"
  /\ extension demo_lib (txt "PDF") = txt "pdf".
Proof.
  apply (extension_after_last_dot demo_lib (txt "report.final") (txt "PDF")).
  simpl. intuition discriminate.
Defined.

(** X17: a file whose branch raises leaves the archive and the summary
    as they were and adds one message to the page, the error with the
    exception; a file whose type is not supported leaves the temporary
    directory too as it was, and adds the warning. *)
Theorem failed_file_adds_message_only (L : Lib) (find_word replace_word : text)
  (case_sensitive : bool) (temp_dir : text) (state : RunState) (file : UploadedFile) :
  (forall e,
      transform L find_word replace_word case_sensitive temp_dir file = Raise e ->
      let state' :=
        process_file L find_word replace_word case_sensitive temp_dir state file in
      zipf state' = zipf state
      /\ replacements_summary state' = replacements_summary state
      /\ shown state' = shown state ++ [error_processing (file_name file) e])
  /\ (transform L find_word replace_word case_sensitive temp_dir file = Ok None ->
      process_file L find_word replace_word case_sensitive temp_dir state file
      = mkRun (temp_files state) (zipf state) (replacements_summary state)
              (shown state ++ [warning_unsupported (file_name file)])).
Proof.
  split.
  - intros e H state'.
    destruct (process_file_spec L find_word replace_word case_sensitive temp_dir
                state file) as [Hz [Hs Hm]].
    fold state' in Hz, Hs, Hm. rewrite Hz, Hs, Hm.
    unfold members, summarise, messages. rewrite H.
    rewrite app_nil_r. repeat split.
  - intros H. unfold process_file.
    pose proof (dispatch_transform L find_word replace_word case_sensitive temp_dir
                  file (temp_files state)) as Hd.
    cbv zeta in Hd. rewrite H in Hd. rewrite Hd. reflexivity.
Qed.

Lemma failed_file_adds_message_only_witness :
  let state' := process_file demo_lib (txt "hello") (txt "hi") false (txt "/tmp/run")
                  initial_state broken_file in
  zipf state' = []
  /\ replacements_summary state' = []
  /\ shown state' = [error_processing (txt "broken.pdf") FileDataError].
Proof.
  apply (proj1 (failed_file_adds_message_only demo_lib (txt "hello") (txt "hi") false
                  (txt "/tmp/run") initial_state broken_file) FileDataError).
  reflexivity.
Defined.

Lemma members_messages_one (L : Lib) (find_word replace_word : text)
  (case_sensitive : bool) (temp_dir : text) (file : UploadedFile) :
  length (members L find_word replace_word case_sensitive temp_dir file)
  + length (messages L find_word replace_word case_sensitive temp_dir file) = 1
  /\ map fst (members L find_word replace_word case_sensitive temp_dir file)
     = if succeeded L find_word replace_word case_sensitive temp_dir file
       then [zip_arcname L (file_name file)] else [].
Proof.
  unfold members, messages, succeeded.
  destruct (transform L find_word replace_word case_sensitive temp_dir file)
    as [[[out count]|]|x]; split; reflexivity.
Qed.

(** X18: every file of a batch adds either one member to the archive or
    one message to the page, never both and never neither, so that members
    and messages together are as many as the files; the members are those
    of the files that ran through their branch and were written, in the
    order of the batch, each under the name the archive makes of the name
    of its file, two files of one name giving two members of that name. *)
Theorem every_file_archived_or_messaged (L : Lib) (find_word replace_word : text)
  (case_sensitive : bool) (temp_dir : text) (uploaded_files : list UploadedFile) :
  let state := process_files L find_word replace_word case_sensitive temp_dir
                 uploaded_files initial_state in
  length (zipf state) + length (shown state) = length uploaded_files
  /\ map fst (zipf state)
     = map (fun file => zip_arcname L (file_name file))
         (filter (succeeded L find_word replace_word case_sensitive temp_dir)
            uploaded_files).
Proof.
  intros state.
  destruct (process_files_spec L find_word replace_word case_sensitive temp_dir
              uploaded_files initial_state) as [Hz [_ Hm]].
  fold state in Hz, Hm. rewrite Hz, Hm. cbn [initial_state zipf shown app].
  clear. induction uploaded_files as [|file more [IHl IHn]]; [split; reflexivity|].
  cbn [flat_map filter length].
  destruct (members_messages_one L find_word replace_word case_sensitive temp_dir file)
    as [Hone Hname].
  rewrite !length_app, map_app, Hname, IHn. split; [lia|].
  destruct (succeeded L find_word replace_word case_sensitive temp_dir file); reflexivity.
Qed.

Lemma dict_get_set {V : Type} (k n : text) (v : V) (d : list (text * V)) :
  dict_get n (dict_set k v d) = if text_eqb k n then Some v else dict_get n d.
Proof.
  destruct (text_eqb k n) eqn:E.
  - apply text_eqb_eq in E. subst n. apply dict_get_set_same.
  - apply dict_get_set_other. apply text_eqb_neq in E. congruence.
Qed.

Lemma dict_get_app {V : Type} (n : text) (a b : list (text * V)) :
  dict_get n (a ++ b)
  = match dict_get n a with
    | Some v => Some v
    | None => dict_get n b
    end.
Proof.
  induction a as [|[k v] a IH]; [reflexivity|].
  cbn [app dict_get]. destruct (text_eqb k n); [reflexivity | exact IH].
Qed.

Lemma summary_last_wins (L : Lib) (find_word replace_word : text)
  (case_sensitive : bool) (temp_dir : text) (n : text)
  (uploaded_files : list UploadedFile) :
  forall summary,
    dict_get n (fold_left (summarise L find_word replace_word case_sensitive temp_dir)
                  uploaded_files summary)
    = match dict_get n (rev (flat_map
                               (entries L find_word replace_word case_sensitive temp_dir)
                               uploaded_files)) with
      | Some count => Some count
      | None => dict_get n summary
      end.
Proof.
  induction uploaded_files as [|file more IH]; intros summary; [reflexivity|].
  cbn [fold_left flat_map]. rewrite IH, rev_app_distr, dict_get_app.
  destruct (dict_get n (rev (flat_map _ more))); [reflexivity|].
  unfold summarise, entries.
  destruct (transform L find_word replace_word case_sensitive temp_dir file)
    as [[[out count]|]|x]; try reflexivity.
  cbn [rev app dict_get]. rewrite dict_get_set.
  now destruct (text_eqb (file_name file) n).
Qed.

(** X19: the count the summary has under a name is the count of the last
    file of the batch with that name that ran through its branch, whatever
    came before it under the same name; a name under which no file
    succeeded has no line. *)
Theorem summary_shows_last_success (L : Lib) (find_word replace_word : text)
  (case_sensitive : bool) (temp_dir : text) (uploaded_files : list UploadedFile)
  (n : text) :
  dict_get n (replacements_summary
                (process_files L find_word replace_word case_sensitive temp_dir
                   uploaded_files initial_state))
  = dict_get n (rev (flat_map (entries L find_word replace_word case_sensitive temp_dir)
                       uploaded_files)).
Proof.
  destruct (process_files_spec L find_word replace_word case_sensitive temp_dir
              uploaded_files initial_state) as [_ [Hs _]].
  rewrite Hs, summary_last_wins. cbn [initial_state replacements_summary dict_get].
  now destruct (dict_get n _).
Qed.

(** The batch of two files of one name: two members, one line. *)
Example same_name_two_members :
  let state := process_files demo_lib (txt "apple") (txt "REPL") false (txt "/tmp/run")
                 [fruit_file; fruit_file_again] initial_state in
  map fst (zipf state) = [txt "fruit.csv"; txt "fruit.csv"]
  /\ dict_get (txt "fruit.csv") (replacements_summary state) = Some 1.
Proof. split; reflexivity. Qed.
